(** * Byte-stream adapters of vowpalwabbit/io/io_adapter.cc

    A shallow embedding of the adapters of [io_adapter.cc] (the POSIX
    branch of every [#ifdef _WIN32]) and the properties the specification
    states about them.  Integers of the C++ source are [Z] with the
    conversions between [size_t], [ssize_t], [ptrdiff_t], [int] and
    [unsigned int] written out for an LP64 target; bytes are [Byte.byte];
    every method returns an [outcome], which separates a normal return from
    a thrown exception, a failed [assert] and an out-of-bounds access. *)

From stdpp Require Import gmap strings list fin_maps.
From Stdlib Require Import ZArith Lia.
From Stdlib.Strings Require Import Byte Ascii.

Open Scope Z_scope.

(** ** Integer types of the source (LP64) *)

Module ctypes.

Definition SIZE_MAX : Z := 2 ^ 64 - 1.
Definition PTRDIFF_MAX : Z := 2 ^ 63 - 1.

(** Conversion to [size_t]: reduction modulo 2^64. *)
Definition to_size_t (z : Z) : Z := z mod 2 ^ 64.

(** Conversion to [ssize_t]: the two's complement reading of the low 64 bits. *)
Definition to_ssize_t (z : Z) : Z := (z + 2 ^ 63) mod 2 ^ 64 - 2 ^ 63.

(** [static_cast<std::ptrdiff_t>]: [ptrdiff_t] is the same 64-bit signed type. *)
Definition to_ptrdiff_t (z : Z) : Z := to_ssize_t z.

(** [(unsigned int)num_bytes]: reduction modulo 2^32. *)
Definition to_unsigned_int (z : Z) : Z := z mod 2 ^ 32.

(** Conversion to [int]: the two's complement reading of the low 32 bits. *)
Definition to_int (z : Z) : Z := (z + 2 ^ 31) mod 2 ^ 32 - 2 ^ 31.

End ctypes.
Import ctypes.

(** ** Outcomes of a call *)

(** What a thrown [VW::vw_exception] carries. *)
Record vw_exception := { what : string; os_error : Z }.

Inductive outcome (A : Type) : Type :=
| Ret (a : A)               (* the call returns *)
| Throw (e : vw_exception)  (* the call throws *)
| Abort                     (* a failed assert: the process aborts *)
| Fault.                    (* an access outside the bytes the caller owns *)
Arguments Ret {A} a.
Arguments Throw {A} e.
Arguments Abort {A}.
Arguments Fault {A}.

#[global] Instance outcome_ret : MRet outcome := fun A a => Ret a.
#[global] Instance outcome_bind : MBind outcome := fun A B f m =>
  match m with
  | Ret a => f a
  | Throw e => Throw e
  | Abort => Abort
  | Fault => Fault
  end.

(** [assert(c)] of <cassert>, as in this translation unit, which does not
    define NDEBUG: a false condition aborts. *)
Definition cassert {A : Type} (c : bool) (k : outcome A) : outcome A :=
  if c then k else Abort.

(** ** Memory owned by the caller *)

(** A byte range [base, base + length contents) that the caller owns;
    pointers are addresses. *)
Record region := { base : Z; contents : list byte }.

Definition region_size (m : region) : Z := Z.of_nat (length (contents m)).

(** The [n] bytes at address [p], when [p, p+n) lies inside the region. *)
Definition region_load (m : region) (p n : Z) : option (list byte) :=
  if (base m <=? p) && (0 <=? n) && (p + n <=? base m + region_size m)
  then Some (take (Z.to_nat n) (drop (Z.to_nat (p - base m)) (contents m)))
  else None.

(** ** The operating system, as the adapters see it *)

Module posix.

Definition ENOENT : Z := 2.
Definition EBADF : Z := 9.
Definition EACCES : Z := 13.
Definition EFAULT : Z := 14.
Definition EINVAL : Z := 22.
Definition ESPIPE : Z := 29.

(** A regular file: its bytes and whether this process may read or write it. *)
Record file := { data : list byte; may_read : bool; may_write : bool }.

(** What an open descriptor refers to: a regular file with an offset, or a
    socket or pipe, which has no offset. *)
Inductive description :=
| Regular (path : string) (offset : Z) (readable writable : bool)
| Stream (incoming outgoing : list byte).

Record state := { files : gmap string file; fds : gmap nat description }.

(** What a system call hands back: its return value and, when that is -1,
    the value it leaves in errno. *)
Record result := { value : Z; errno : Z }.
Definition ok (v : Z) : result := {| value := v; errno := 0 |}.
Definition failed (e : Z) : result := {| value := -1; errno := e |}.

Inductive oflag :=
| O_RDONLY               (* O_RDONLY | O_LARGEFILE *)
| O_CREAT_WRONLY_TRUNC.  (* O_CREAT | O_WRONLY | O_LARGEFILE | O_TRUNC, 0666 *)

Definition lookup_fd (s : state) (fd : Z) : option description :=
  if fd <? 0 then None else fds s !! Z.to_nat fd.

Definition file_data (s : state) (path : string) : list byte :=
  from_option data [] (files s !! path).

Definition set_fd (s : state) (fd : Z) (d : description) : state :=
  {| files := files s; fds := <[Z.to_nat fd := d]> (fds s) |}.

(** The first number from [k] on that is not open, looking at [fuel] numbers. *)
Fixpoint first_free (m : gmap nat description) (fuel k : nat) : nat :=
  match fuel with
  | O => k
  | S fuel =>
      match m !! k with
      | None => k
      | Some _ => first_free m fuel (S k)
      end
  end.

(** The lowest-numbered descriptor that is not open: among the numbers
    0 .. size there is one. *)
Definition lowest_free (m : gmap nat description) : nat := first_free m (size m) 0.

(** A new descriptor for [d]: the lowest one that is not open. *)
Definition install (s : state) (d : description) : result * state :=
  let fd := lowest_free (fds s) in
  (ok (Z.of_nat fd), {| files := files s; fds := <[fd := d]> (fds s) |}).

Definition truncated (s : state) (path : string) (f : file) : state :=
  {| files := <[path := f]> (files s); fds := fds s |}.

(** [open(path, flags)]: an empty path names no file. *)
Definition open (s : state) (path : string) (fl : oflag) : result * state :=
  if String.eqb path "" then (failed ENOENT, s)
  else
    match fl, files s !! path with
    | O_RDONLY, None => (failed ENOENT, s)
    | O_RDONLY, Some f =>
        if may_read f then install s (Regular path 0 true false)
        else (failed EACCES, s)
    | O_CREAT_WRONLY_TRUNC, None =>
        install (truncated s path {| data := []; may_read := true; may_write := true |})
                (Regular path 0 false true)
    | O_CREAT_WRONLY_TRUNC, Some f =>
        if may_write f
        then install (truncated s path {| data := []; may_read := may_read f; may_write := true |})
                     (Regular path 0 false true)
        else (failed EACCES, s)
    end.

(** [read(fd, buf, count)]: the result and the bytes put into [buf]. *)
Definition read (s : state) (fd : Z) (count : Z) : (result * list byte) * state :=
  match lookup_fd s fd with
  | Some (Regular path off true w) =>
      let bytes := take (Z.to_nat count) (drop (Z.to_nat off) (file_data s path)) in
      ((ok (Z.of_nat (length bytes)), bytes),
       set_fd s fd (Regular path (off + Z.of_nat (length bytes)) true w))
  | Some (Stream inc out) =>
      let bytes := take (Z.to_nat count) inc in
      ((ok (Z.of_nat (length bytes)), bytes),
       set_fd s fd (Stream (drop (Z.to_nat count) inc) out))
  | _ => ((failed EBADF, []), s)
  end.

(** [write(fd, buf, count)], [buf] pointing into [m]. *)
Definition write (s : state) (fd : Z) (m : region) (buf count : Z) : result * state :=
  match lookup_fd s fd with
  | Some (Regular path off r true) =>
      match region_load m buf count with
      | None => (failed EFAULT, s)
      | Some bytes =>
          let old := file_data s path in
          let new := take (Z.to_nat off) old
                     ++ replicate (Z.to_nat off - length old) "000"%byte
                     ++ bytes ++ drop (Z.to_nat (off + count)) old in
          (ok count,
           {| files := alter (fun f => {| data := new; may_read := may_read f;
                                          may_write := may_write f |}) path (files s);
              fds := <[Z.to_nat fd := Regular path (off + count) r true]> (fds s) |})
      end
  | Some (Stream inc out) =>
      match region_load m buf count with
      | None => (failed EFAULT, s)
      | Some bytes => (ok count, set_fd s fd (Stream inc (out ++ bytes)))
      end
  | _ => (failed EBADF, s)
  end.

(** [lseek(fd, offset, SEEK_SET)] *)
Definition lseek (s : state) (fd : Z) (offset : Z) : result * state :=
  match lookup_fd s fd with
  | Some (Regular path _ r w) =>
      if offset <? 0 then (failed EINVAL, s)
      else (ok offset, set_fd s fd (Regular path offset r w))
  | Some (Stream _ _) => (failed ESPIPE, s)
  | None => (failed EBADF, s)
  end.

(** [close(fd)] *)
Definition close (s : state) (fd : Z) : result * state :=
  match lookup_fd s fd with
  | Some _ => (ok 0, {| files := files s; fds := delete (Z.to_nat fd) (fds s) |})
  | None => (failed EBADF, s)
  end.

End posix.

(** ** The process's standard streams, as <iostream> gives them *)

Module iostream.

(** [std::cin]: what is still to be read, and whether the stream is good. *)
Record istream := { pending : list byte; in_good : bool }.

(** [std::cin.read(buffer, n)] followed by [std::cin.gcount()]: the stream
    stays good exactly when it delivered the [n] characters asked for. *)
Definition read (i : istream) (n : Z) : (list byte * Z) * istream :=
  if in_good i then
    let bytes := take (Z.to_nat n) (pending i) in
    ((bytes, Z.of_nat (length bytes)),
     {| pending := drop (Z.to_nat n) (pending i);
        in_good := n =? Z.of_nat (length bytes) |})
  else (([], 0), i).

(** [std::cout]: what it has taken, how many more bytes its sink takes
    ([None]: any number), and whether the stream is good. *)
Record ostream := { written : list byte; room : option Z; out_good : bool }.

(** How many of the [bytes] the stream takes. *)
Definition accepted (o : ostream) (bytes : list byte) : Z :=
  if out_good o then
    match room o with
    | None => Z.of_nat (length bytes)
    | Some r => Z.min r (Z.of_nat (length bytes))
    end
  else 0.

(** [std::cout.write(buffer, n)] for the [n] bytes at [buffer]: a stream
    that is not good takes nothing, a sink that is full sets badbit. *)
Definition write (o : ostream) (bytes : list byte) : ostream :=
  if out_good o then
    match room o with
    | None => {| written := written o ++ bytes; room := None; out_good := true |}
    | Some r =>
        if Z.of_nat (length bytes) <=? r
        then {| written := written o ++ bytes;
                room := Some (r - Z.of_nat (length bytes)); out_good := true |}
        else {| written := written o ++ take (Z.to_nat r) bytes;
                room := Some 0; out_good := false |}
    end
  else o.

(** [std::cout.write(buffer, n)], [buffer] pointing into [m]: a stream that
    is not good touches nothing, a negative count inserts nothing and sets
    badbit. *)
Definition write_n (o : ostream) (m : region) (buffer n : Z) : outcome ostream :=
  if out_good o then
    if n <? 0 then Ret {| written := written o; room := room o; out_good := false |}
    else
      match region_load m buffer n with
      | None => Fault
      | Some bytes => Ret (write o bytes)
      end
  else Ret o.

End iostream.

(** ** The compression library *)

Module zlib.

Definition Z_NULL : Z := 0.
Definition SEEK_SET : Z := 0.

(** The functions of zlib that the adapters call, over the library's own
    state [G]; a [gzFile] is an address, [Z_NULL] when opening failed.
    [gzread] also says which bytes it put into the buffer; [gzwrite] is
    given the bytes at its buffer argument. *)
Record codec (G : Type) := {
  gzopen : G -> string -> string -> Z * G;
  gzdopen : G -> Z -> string -> Z * G;
  gzread : G -> Z -> Z -> (Z * list byte) * G;
  gzwrite : G -> Z -> list byte -> Z -> Z * G;
  gzseek : G -> Z -> Z -> Z -> Z * G;
  gzclose : G -> Z -> Z * G
}.
Arguments gzopen {G} _ _ _ _.
Arguments gzdopen {G} _ _ _ _.
Arguments gzread {G} _ _ _ _.
Arguments gzwrite {G} _ _ _ _ _.
Arguments gzseek {G} _ _ _ _ _.
Arguments gzclose {G} _ _ _.

(** The states a handle goes through under [gzread] calls none of which
    fails, that is, returns a negative [int]. *)
Inductive gz_reads_ok {G : Type} (c : codec G) (h : Z) (g : G) : G -> Prop :=
| gz_reads_ok_refl : gz_reads_ok c h g g
| gz_reads_ok_step g' len :
    gz_reads_ok c h g g' ->
    0 <= to_int (fst (fst (gzread c g' h len))) ->
    gz_reads_ok c h g (snd (gzread c g' h len)).

(** The reads of the lengths [lens], one after the other from [g], all succeed. *)
Fixpoint reads_succeed {G : Type} (c : codec G) (h : Z) (g : G) (lens : list Z) : Prop :=
  match lens with
  | [] => True
  | len :: lens =>
      0 <= to_int (fst (fst (gzread c g h len)))
      /\ reads_succeed c h (snd (gzread c g h len)) lens
  end.

(** What zlib does on [gzseek(file, 0, SEEK_SET)] for a file opened for
    reading on which no [gzread] has failed: the next [gzread] starts again
    at the first uncompressed byte; in terms of the state, the file is as it
    was when [gzopen] returned it.  (Once a [gzread] has failed, the file
    keeps its error and [gzseek] fails too.) *)
Definition rewinds_unless_failed {G : Type} (c : codec G) : Prop :=
  forall g path h g0 g1,
    gzopen c g path "rb" = (h, g0) ->
    gz_reads_ok c h g0 g1 ->
    snd (gzseek c g1 h 0 SEEK_SET) = g0.

End zlib.

(** ** What io_adapter.cc takes from its headers *)

(** Modelled from the spec: the THROWERRNO macro of vw_exception.h, which
    is not among the sources; the spec has an open failure "reported
    immediately to the caller as a distinguishable failure carrying an
    OS-level code/message". *)
Definition THROWERRNO {A : Type} (msg : string) (errno : Z) : outcome A :=
  Throw {| what := msg; os_error := errno |}.

(** [std::string::c_str()]: as a C string, the characters before the first NUL. *)
Fixpoint c_str (s : string) : string :=
  match s with
  | EmptyString => EmptyString
  | String c s' => if Ascii.eqb c "000"%char then EmptyString else String c (c_str s')
  end.

Module reader.

(** Modelled from the spec: [reader::reset] of io_adapter.h, the virtual
    function an adapter inherits when it declares no [reset] of its own; the
    header is not among the sources.  The spec has "calling on a
    non-resettable stream is a defect to be caught by precondition
    assertion, not by a recoverable error path". *)
Definition reset {A : Type} (is_resettable : bool) (st : A) : outcome A :=
  cassert is_resettable (Ret st).

End reader.

(** [enum class file_mode] *)
Module file_mode.

Inductive t := read | write.

Definition eqb (a b : t) : bool :=
  match a, b with
  | read, read | write, write => true
  | _, _ => false
  end.

(** ["rb"] or ["wb"], as the constructors of [gzip_file_adapter] choose it. *)
Definition arg (mode : t) : string :=
  if eqb mode read then "rb" else "wb".

End file_mode.

(** ** socket_adapter, details::socket_closer and socket *)

Module socket.

(** [details::socket_closer] *)
Record socket_closer := { closer_fd : Z }.

(** The control block of a [std::shared_ptr<details::socket_closer>]: the
    number of owners and the object they share. *)
Record control_block := { use_count : nat; pointee : socket_closer }.

(** The blocks that exist, by address, and the [close] calls made so far. *)
Record heap := { blocks : gmap nat control_block; closes : list Z }.

(** [details::socket_closer::~socket_closer] *)
Definition socket_closer_destroy (c : socket_closer) (h : heap) : heap :=
  {| blocks := blocks h; closes := closes h ++ [closer_fd c] |}.

(** [std::make_shared<details::socket_closer>(fd)] *)
Definition make_shared (fd : Z) (h : heap) : nat * heap :=
  let p := fresh (dom (blocks h)) in
  (p, {| blocks := <[p := {| use_count := 1; pointee := {| closer_fd := fd |} |}]> (blocks h);
         closes := closes h |}).

(** Copying a [shared_ptr]: one more owner. *)
Definition shared_copy (p : nat) (h : heap) : outcome heap :=
  match blocks h !! p with
  | None => Fault
  | Some b =>
      Ret {| blocks := <[p := {| use_count := S (use_count b); pointee := pointee b |}]> (blocks h);
             closes := closes h |}
  end.

(** Destroying a [shared_ptr]: one owner less; the last one destroys the
    shared object and frees the block. *)
Definition shared_release (p : nat) (h : heap) : outcome heap :=
  match blocks h !! p with
  | None => Fault
  | Some b =>
      match use_count b with
      | O => Fault
      | S O =>
          Ret (socket_closer_destroy (pointee b)
                 {| blocks := delete p (blocks h); closes := closes h |})
      | S n =>
          Ret {| blocks := <[p := {| use_count := n; pointee := pointee b |}]> (blocks h);
                 closes := closes h |}
      end
  end.

(** [struct socket_adapter]; [_closer] is the address of the control block. *)
Record socket_adapter := { _socket_fd : Z; _closer : nat }.

Definition is_resettable : bool := false.

(** [socket_adapter::socket_adapter(int fd, const std::shared_ptr<...>& closer)] *)
Definition socket_adapter_new (fd : Z) (closer : nat) (h : heap)
  : outcome (socket_adapter * heap) :=
  h ← shared_copy closer h;
  Ret ({| _socket_fd := fd; _closer := closer |}, h).

(** The destructor of [socket_adapter] destroys its member [_closer]. *)
Definition socket_adapter_destroy (a : socket_adapter) (h : heap) : outcome heap :=
  shared_release (_closer a) h.

(** [socket_adapter::read] *)
Definition read (a : socket_adapter) (s : posix.state) (num_bytes : Z)
  : outcome (socket_adapter * posix.state * (list byte * Z)) :=
  let '((r, bytes), s) := posix.read s (_socket_fd a) (to_unsigned_int num_bytes) in
  Ret (a, s, (bytes, posix.value r)).

(** [socket_adapter::write] *)
Definition write (a : socket_adapter) (s : posix.state) (m : region) (buffer num_bytes : Z)
  : outcome (socket_adapter * posix.state * Z) :=
  let '(r, s) := posix.write s (_socket_fd a) m buffer (to_unsigned_int num_bytes) in
  Ret (a, s, posix.value r).

(** [socket_adapter] declares no [reset]: it has the one of [reader]. *)
Definition reset {A : Type} (st : A) : outcome A := reader.reset is_resettable st.

(** [struct socket]: the descriptor and its own [shared_ptr] to the closer. *)
Record t := { sock_fd : Z; sock_closer : nat }.

(** Modelled from the spec: the constructor of [socket] in io_adapter.h,
    which is not among the sources; the spec has the socket own one OS
    descriptor and hold, like every stream derived from it, a reference to
    the shared descriptor closer, which is constructed bound to the live
    descriptor. *)
Definition new (fd : Z) (h : heap) : t * heap :=
  let '(p, h) := make_shared fd h in
  ({| sock_fd := fd; sock_closer := p |}, h).

(** [socket::get_reader] and [socket::get_writer] *)
Definition get_reader (s : t) (h : heap) : outcome (socket_adapter * heap) :=
  socket_adapter_new (sock_fd s) (sock_closer s) h.
Definition get_writer (s : t) (h : heap) : outcome (socket_adapter * heap) :=
  socket_adapter_new (sock_fd s) (sock_closer s) h.

(** [socket::~socket] destroys its member [_closer]. *)
Definition destroy (s : t) (h : heap) : outcome heap :=
  shared_release (sock_closer s) h.

(** *** A caller that holds a socket and the streams derived from it *)

Inductive role := reader_role | writer_role.

Inductive event :=
| GetReader               (* r = sock->get_reader() *)
| GetWriter               (* w = sock->get_writer() *)
| DestroySocket           (* the unique_ptr<socket> goes away *)
| DestroyStream (i : nat). (* the i-th stream handed out goes away *)

(** The caller's objects: the socket while it lives, the live streams by
    the order in which they were handed out, and the heap. *)
Record caller := {
  the_socket : option t;
  streams : gmap nat (role * socket_adapter);
  handed_out : nat;
  mem : heap
}.

(** [VW::io::wrap_socket_descriptor(fd)] on an empty heap. *)
Definition wrap_socket_descriptor (fd : Z) : caller :=
  let '(s, h) := new fd {| blocks := ∅; closes := [] |} in
  {| the_socket := Some s; streams := ∅; handed_out := 0; mem := h |}.

Definition derive (ro : role) (c : caller) : option caller :=
  match the_socket c with
  | None => None
  | Some s =>
      match (match ro with reader_role => get_reader s (mem c)
                         | writer_role => get_writer s (mem c) end) with
      | Ret (a, h) =>
          Some {| the_socket := Some s;
                  streams := <[handed_out c := (ro, a)]> (streams c);
                  handed_out := S (handed_out c);
                  mem := h |}
      | _ => None
      end
  end.

(** One event; [None] when it names an object that no longer lives or the
    heap is touched through a dangling pointer. *)
Definition step (c : caller) (e : event) : option caller :=
  match e with
  | GetReader => derive reader_role c
  | GetWriter => derive writer_role c
  | DestroySocket =>
      match the_socket c with
      | None => None
      | Some s =>
          match destroy s (mem c) with
          | Ret h => Some {| the_socket := None; streams := streams c;
                             handed_out := handed_out c; mem := h |}
          | _ => None
          end
      end
  | DestroyStream i =>
      match streams c !! i with
      | None => None
      | Some (_, a) =>
          match socket_adapter_destroy a (mem c) with
          | Ret h => Some {| the_socket := the_socket c; streams := delete i (streams c);
                             handed_out := handed_out c; mem := h |}
          | _ => None
          end
      end
  end.

Fixpoint run (c : caller) (es : list event) : option caller :=
  match es with
  | [] => Some c
  | e :: es => match step c e with Some c => run c es | None => None end
  end.

(** The live references: the socket itself and every live stream. *)
Definition live_refs (c : caller) : nat :=
  (match the_socket c with Some _ => 1 | None => 0 end + size (streams c))%nat.

(** The heap while [n] owners share the closer at [p], and once it is gone. *)
Definition shared_heap (p : nat) (fd : Z) (n : nat) : heap :=
  match n with
  | O => {| blocks := ∅; closes := [fd] |}
  | S _ => {| blocks := {[ p := {| use_count := n; pointee := {| closer_fd := fd |} |} ]};
              closes := [] |}
  end.

(** What holds of a caller that started from [wrap_socket_descriptor fd]:
    every live object refers to the one closer, and the heap has counted
    them. *)
Definition closer_inv (fd : Z) (c : caller) : Prop :=
  exists p,
    (forall s, the_socket c = Some s -> s = {| sock_fd := fd; sock_closer := p |})
    /\ (forall i ro a, streams c !! i = Some (ro, a) -> a = {| _socket_fd := fd; _closer := p |})
    /\ (forall i, (handed_out c <= i)%nat -> streams c !! i = None)
    /\ mem c = shared_heap p fd (live_refs c).

End socket.

(** ** stdio_adapter *)

Module stdio_adapter.

Definition is_resettable : bool := false.

(** [stdio_adapter::read]; [num_bytes] becomes a [std::streamsize]. *)
Definition read (i : iostream.istream) (num_bytes : Z)
  : outcome (iostream.istream * (list byte * Z)) :=
  let '((bytes, gcount), i) := iostream.read i (to_ssize_t num_bytes) in
  Ret (i, (bytes, gcount)).

(** [stdio_adapter::write]: what [std::cout.write] did is not looked at. *)
Definition write (o : iostream.ostream) (m : region) (buffer num_bytes : Z)
  : outcome (iostream.ostream * Z) :=
  o ← iostream.write_n o m buffer (to_ssize_t num_bytes);
  Ret (o, to_ssize_t num_bytes).

(** [stdio_adapter] declares no [reset]: it has the one of [reader]. *)
Definition reset {A : Type} (st : A) : outcome A := reader.reset is_resettable st.

End stdio_adapter.

(** ** file_adapter *)

Module file_adapter.

Record t := { _file_descriptor : Z; _mode : file_mode.t }.

Definition is_resettable : bool := true.

(** [file_adapter::file_adapter(const char* filename, file_mode mode)];
    [filename] is a C string, so [*filename != 0] says it is not empty. *)
Definition new (filename : string) (mode : file_mode.t) (s : posix.state)
  : outcome (t * posix.state) :=
  let '(r, s) :=
    match mode with
    | file_mode.read => posix.open s filename posix.O_RDONLY
    | file_mode.write => posix.open s filename posix.O_CREAT_WRONLY_TRUNC
    end in
  let file_descriptor := posix.value r in
  if (file_descriptor =? -1) && negb (String.eqb filename "")
  then THROWERRNO ("can't open: " +:+ filename) (posix.errno r)
  else Ret ({| _file_descriptor := file_descriptor; _mode := mode |}, s).

(** [file_adapter::file_adapter(int file_descriptor, file_mode mode)] *)
Definition new_fd (file_descriptor : Z) (mode : file_mode.t) : t :=
  {| _file_descriptor := file_descriptor; _mode := mode |}.

(** [file_adapter::read] *)
Definition read (a : t) (s : posix.state) (num_bytes : Z)
  : outcome (t * posix.state * (list byte * Z)) :=
  cassert (file_mode.eqb (_mode a) file_mode.read)
    (let '((r, bytes), s) := posix.read s (_file_descriptor a) (to_unsigned_int num_bytes) in
     Ret (a, s, (bytes, posix.value r))).

(** [file_adapter::write] *)
Definition write (a : t) (s : posix.state) (m : region) (buffer num_bytes : Z)
  : outcome (t * posix.state * Z) :=
  cassert (file_mode.eqb (_mode a) file_mode.write)
    (let '(r, s) := posix.write s (_file_descriptor a) m buffer (to_unsigned_int num_bytes) in
     Ret (a, s, posix.value r)).

(** [file_adapter::reset]: what [lseek] returns is not looked at. *)
Definition reset (a : t) (s : posix.state) : outcome (t * posix.state) :=
  let '(_, s) := posix.lseek s (_file_descriptor a) 0 in
  Ret (a, s).

(** [file_adapter::~file_adapter] *)
Definition destroy (a : t) (s : posix.state) : posix.state :=
  snd (posix.close s (_file_descriptor a)).

End file_adapter.

(** What a compressed adapter returns for the count [num] the codec gave:
    [(num > 0) ? (size_t)num : 0], converted to the [ssize_t] it returns. *)
Definition gz_count (num : Z) : Z :=
  to_ssize_t (if num >? 0 then to_size_t num else 0).

(** The count as the specification words it: the codec's count when it is
    positive, zero otherwise. *)
Definition zero_unless_positive (num : Z) : Z := if 0 <? num then num else 0.

(** ** gzip_file_adapter *)

Module gzip_file_adapter.

Record t := { _gz_file : Z; _mode : file_mode.t }.

Definition is_resettable : bool := true.

Section methods.
Context {G : Type} (c : zlib.codec G).

(** [gzip_file_adapter::gzip_file_adapter(const char* filename, file_mode mode)];
    the source has "TODO test for failure" after the [gzopen]. *)
Definition new (filename : string) (mode : file_mode.t) (g : G) : outcome (t * G) :=
  let file_mode_arg := file_mode.arg mode in
  let '(gz_file, g) := zlib.gzopen c g filename file_mode_arg in
  Ret ({| _gz_file := gz_file; _mode := mode |}, g).

(** [gzip_file_adapter::gzip_file_adapter(int file_descriptor, file_mode mode)] *)
Definition new_fd (file_descriptor : Z) (mode : file_mode.t) (g : G) : outcome (t * G) :=
  let file_mode_arg := file_mode.arg mode in
  let '(gz_file, g) := zlib.gzdopen c g file_descriptor file_mode_arg in
  Ret ({| _gz_file := gz_file; _mode := mode |}, g).

(** [gzip_file_adapter::~gzip_file_adapter] *)
Definition destroy (a : t) (g : G) : G := snd (zlib.gzclose c g (_gz_file a)).

(** [gzip_file_adapter::read]; [gzread] returns an [int]. *)
Definition read (a : t) (g : G) (num_bytes : Z) : outcome (t * G * (list byte * Z)) :=
  cassert (file_mode.eqb (_mode a) file_mode.read)
    (let '((r, bytes), g) := zlib.gzread c g (_gz_file a) (to_unsigned_int num_bytes) in
     let num_read := to_int r in
     Ret (a, g, (bytes, gz_count num_read))).

(** [gzip_file_adapter::write]; [gzwrite] returns an [int]. *)
Definition write (a : t) (g : G) (m : region) (buffer num_bytes : Z) : outcome (t * G * Z) :=
  cassert (file_mode.eqb (_mode a) file_mode.write)
    (match region_load m buffer (to_unsigned_int num_bytes) with
     | None => Fault
     | Some bytes =>
         let '(w, g) := zlib.gzwrite c g (_gz_file a) bytes (to_unsigned_int num_bytes) in
         let num_written := to_int w in
         Ret (a, g, gz_count num_written)
     end).

(** [gzip_file_adapter::reset]: what [gzseek] returns is not looked at. *)
Definition reset (a : t) (g : G) : outcome (t * G) :=
  let '(_, g) := zlib.gzseek c g (_gz_file a) 0 zlib.SEEK_SET in
  Ret (a, g).

End methods.

End gzip_file_adapter.

(** ** gzip_stdio_adapter *)

Module gzip_stdio_adapter.

Record t := { _gz_stdin : Z; _gz_stdout : Z }.

Definition is_resettable : bool := false.

(** [fileno(stdin)] and [fileno(stdout)] *)
Definition STDIN_FILENO : Z := 0.
Definition STDOUT_FILENO : Z := 1.

Section methods.
Context {G : Type} (c : zlib.codec G).

(** [gzip_stdio_adapter::gzip_stdio_adapter] *)
Definition new (g : G) : outcome (t * G) :=
  let '(gz_stdin, g) := zlib.gzdopen c g STDIN_FILENO "rb" in
  let '(gz_stdout, g) := zlib.gzdopen c g STDOUT_FILENO "wb" in
  Ret ({| _gz_stdin := gz_stdin; _gz_stdout := gz_stdout |}, g).

(** [gzip_stdio_adapter::~gzip_stdio_adapter] *)
Definition destroy (a : t) (g : G) : G :=
  let g := snd (zlib.gzclose c g (_gz_stdin a)) in
  snd (zlib.gzclose c g (_gz_stdout a)).

(** [gzip_stdio_adapter::read] *)
Definition read (a : t) (g : G) (num_bytes : Z) : outcome (t * G * (list byte * Z)) :=
  let '((r, bytes), g) := zlib.gzread c g (_gz_stdin a) (to_unsigned_int num_bytes) in
  let num_read := to_int r in
  Ret (a, g, (bytes, gz_count num_read)).

(** [gzip_stdio_adapter::write] *)
Definition write (a : t) (g : G) (m : region) (buffer num_bytes : Z) : outcome (t * G * Z) :=
  match region_load m buffer (to_unsigned_int num_bytes) with
  | None => Fault
  | Some bytes =>
      let '(w, g) := zlib.gzwrite c g (_gz_stdout a) bytes (to_unsigned_int num_bytes) in
      let num_written := to_int w in
      Ret (a, g, gz_count num_written)
  end.

End methods.

(** [gzip_stdio_adapter] declares no [reset]: it has the one of [reader]. *)
Definition reset {A : Type} (st : A) : outcome A := reader.reset is_resettable st.

End gzip_stdio_adapter.

(** ** vector_writer *)

Module vector_writer.

(** [std::vector<char>]: its elements and its capacity. *)
Record vector := { elems : list byte; capacity : Z }.

Definition size (v : vector) : Z := Z.of_nat (length (elems v)).

(** [reserve(n)]: capacity becomes at least [n]; the elements stay. *)
Definition reserve (v : vector) (n : Z) : vector :=
  if capacity v <? n then {| elems := elems v; capacity := n |} else v.

(** [insert(end, first, last)]: appends, growing the capacity if it has to. *)
Definition insert_end (v : vector) (bytes : list byte) : vector :=
  {| elems := elems v ++ bytes;
     capacity := Z.max (capacity v) (size v + Z.of_nat (length bytes)) |}.

(** [vector_writer::write]; the state is the vector [*_buffer] shared with
    the caller, [buffer] points into [m]. *)
Definition write (v : vector) (m : region) (buffer : Z) (num_bytes : Z)
  : outcome (vector * Z) :=
  let v := reserve v (to_size_t (size v + num_bytes)) in
  match region_load m buffer num_bytes with
  | None => Fault
  | Some bytes => Ret (insert_end v bytes, to_ssize_t num_bytes)
  end.

(** Writing a whole byte sequence: [write(bytes.data(), bytes.size())]. *)
Definition write_bytes (v : vector) (bytes : list byte) : outcome (vector * Z) :=
  write v {| base := 0; contents := bytes |} 0 (Z.of_nat (length bytes)).

End vector_writer.

(** ** buffer_view *)

Module buffer_view.

Record t := { _data : Z; _read_head : Z; _len : Z }.

(** [buffer_view::buffer_view(const char* data, size_t len)] *)
Definition new (data len : Z) : t :=
  {| _data := data; _read_head := data; _len := len |}.

Definition is_resettable : bool := true.

(** The value of [num_bytes] after the [std::min] of [buffer_view::read]. *)
Definition clipped (bv : t) (num_bytes : Z) : Z :=
  to_size_t (Z.min ((_data bv + _len bv) - _read_head bv) (to_ptrdiff_t num_bytes)).

(** [buffer_view::read]: the object after the call, the bytes copied into
    [buffer] and the returned count. *)
Definition read (m : region) (bv : t) (num_bytes : Z) : outcome (t * (list byte * Z)) :=
  let num_bytes := clipped bv num_bytes in
  if num_bytes =? 0 then Ret (bv, ([], 0))
  else
    match region_load m (_read_head bv) num_bytes with
    | None => Fault
    | Some bytes =>
        Ret ({| _data := _data bv; _read_head := _read_head bv + num_bytes; _len := _len bv |},
             (bytes, to_ssize_t num_bytes))
    end.

(** [buffer_view::reset] *)
Definition reset (bv : t) : t :=
  {| _data := _data bv; _read_head := _data bv; _len := _len bv |}.

(** A sequence of [read] calls with the requested sizes [reqs]. *)
Fixpoint read_seq (m : region) (bv : t) (reqs : list Z)
  : outcome (t * list (list byte * Z)) :=
  match reqs with
  | [] => Ret (bv, [])
  | n :: reqs =>
      '(bv, r) ← read m bv n;
      '(bv, rs) ← read_seq m bv reqs;
      Ret (bv, r :: rs)
  end.

(** The cursor invariant [data <= read_head <= data + len]. *)
Definition cursor_inv (bv : t) : Prop :=
  _data bv <= _read_head bv <= _data bv + _len bv.

(** The view [bv] was made over exactly the caller's range [m]. *)
Definition view_over (m : region) (bv : t) : Prop :=
  _data bv = base m /\ _len bv = region_size m.

End buffer_view.

(** Sum of the counts and concatenation of the bytes a sequence of reads
    returned. *)
Definition total_count (rs : list (list byte * Z)) : Z := foldr Z.add 0 (snd <$> rs).
Definition all_bytes (rs : list (list byte * Z)) : list byte := concat (fst <$> rs).
Definition sum_Z (l : list Z) : Z := foldr Z.add 0 l.

(** A size that a [ptrdiff_t] holds. *)
Definition fits_ptrdiff (n : Z) : Prop := 0 <= n <= PTRDIFF_MAX.


(** ** The reader interface and the factories of namespace VW::io *)

Module io.

(** Everything outside the adapters that their calls act on. *)
Record world (G : Type) := {
  w_os : posix.state;
  w_gz : G;
  w_cin : iostream.istream;
  w_cout : iostream.ostream
}.
Arguments w_os {G} _.
Arguments w_gz {G} _.
Arguments w_cin {G} _.
Arguments w_cout {G} _.

Definition with_os {G} (w : world G) (s : posix.state) : world G :=
  {| w_os := s; w_gz := w_gz w; w_cin := w_cin w; w_cout := w_cout w |}.
Definition with_gz {G} (w : world G) (g : G) : world G :=
  {| w_os := w_os w; w_gz := g; w_cin := w_cin w; w_cout := w_cout w |}.
Definition with_cin {G} (w : world G) (i : iostream.istream) : world G :=
  {| w_os := w_os w; w_gz := w_gz w; w_cin := i; w_cout := w_cout w |}.

(** An object behind a [std::unique_ptr<reader>]: one of the structs that
    derive from [reader]; a buffer view comes with the range it looks at. *)
Inductive reader :=
| SocketAdapter (a : socket.socket_adapter)
| StdioAdapter
| FileAdapter (a : file_adapter.t)
| GzipFileAdapter (a : gzip_file_adapter.t)
| GzipStdioAdapter (a : gzip_stdio_adapter.t)
| BufferView (m : region) (bv : buffer_view.t).

(** [reader::is_resettable()]: what the adapter's constructor passed to
    the constructor of [reader]. *)
Definition is_resettable (r : reader) : bool :=
  match r with
  | SocketAdapter _ => socket.is_resettable
  | StdioAdapter => stdio_adapter.is_resettable
  | FileAdapter _ => file_adapter.is_resettable
  | GzipFileAdapter _ => gzip_file_adapter.is_resettable
  | GzipStdioAdapter _ => gzip_stdio_adapter.is_resettable
  | BufferView _ _ => buffer_view.is_resettable
  end.

Section dispatch.
Context {G : Type} (c : zlib.codec G).

(** The virtual call [r->read(buffer, num_bytes)]. *)
Definition read (r : reader) (w : world G) (num_bytes : Z)
  : outcome (reader * world G * (list byte * Z)) :=
  match r with
  | SocketAdapter a =>
      '(a, s, out) ← socket.read a (w_os w) num_bytes;
      Ret (SocketAdapter a, with_os w s, out)
  | StdioAdapter =>
      '(i, out) ← stdio_adapter.read (w_cin w) num_bytes;
      Ret (StdioAdapter, with_cin w i, out)
  | FileAdapter a =>
      '(a, s, out) ← file_adapter.read a (w_os w) num_bytes;
      Ret (FileAdapter a, with_os w s, out)
  | GzipFileAdapter a =>
      '(a, g, out) ← gzip_file_adapter.read c a (w_gz w) num_bytes;
      Ret (GzipFileAdapter a, with_gz w g, out)
  | GzipStdioAdapter a =>
      '(a, g, out) ← gzip_stdio_adapter.read c a (w_gz w) num_bytes;
      Ret (GzipStdioAdapter a, with_gz w g, out)
  | BufferView m bv =>
      '(bv, out) ← buffer_view.read m bv num_bytes;
      Ret (BufferView m bv, w, out)
  end.

(** The virtual call [r->reset()]. *)
Definition reset (r : reader) (w : world G) : outcome (reader * world G) :=
  match r with
  | SocketAdapter _ => socket.reset (r, w)
  | StdioAdapter => stdio_adapter.reset (r, w)
  | FileAdapter a =>
      '(a, s) ← file_adapter.reset a (w_os w);
      Ret (FileAdapter a, with_os w s)
  | GzipFileAdapter a =>
      '(a, g) ← gzip_file_adapter.reset c a (w_gz w);
      Ret (GzipFileAdapter a, with_gz w g)
  | GzipStdioAdapter _ => gzip_stdio_adapter.reset (r, w)
  | BufferView m bv => Ret (BufferView m (buffer_view.reset bv), w)
  end.

(** A sequence of [read] calls with the requested sizes [reqs]: the bytes
    and the count each call gave. *)
Fixpoint read_seq (r : reader) (w : world G) (reqs : list Z)
  : outcome (reader * world G * list (list byte * Z)) :=
  match reqs with
  | [] => Ret (r, w, [])
  | n :: reqs =>
      '(r, w, out) ← read r w n;
      '(r, w, outs) ← read_seq r w reqs;
      Ret (r, w, out :: outs)
  end.

(** The factories that hand out a reader. *)
Definition open_file_reader (file_path : string) (w : world G) : outcome (reader * world G) :=
  '(a, s) ← file_adapter.new (c_str file_path) file_mode.read (w_os w);
  Ret (FileAdapter a, with_os w s).

Definition open_compressed_file_reader (file_path : string) (w : world G)
  : outcome (reader * world G) :=
  '(a, g) ← gzip_file_adapter.new c (c_str file_path) file_mode.read (w_gz w);
  Ret (GzipFileAdapter a, with_gz w g).

Definition open_compressed_stdin (w : world G) : outcome (reader * world G) :=
  '(a, g) ← gzip_stdio_adapter.new c (w_gz w);
  Ret (GzipStdioAdapter a, with_gz w g).

Definition open_stdin (w : world G) : outcome (reader * world G) :=
  Ret (StdioAdapter, w).

(** [create_buffer_view(data, len)] over the caller's range [m]. *)
Definition create_buffer_view (m : region) (data len : Z) (w : world G)
  : outcome (reader * world G) :=
  Ret (BufferView m (buffer_view.new data len), w).

(** A call of one of them. *)
Inductive reader_request :=
| OpenFileReader (file_path : string)
| OpenCompressedFileReader (file_path : string)
| OpenCompressedStdin
| OpenStdin
| CreateBufferView (m : region) (data len : Z).

Definition make_reader (q : reader_request) (w : world G) : outcome (reader * world G) :=
  match q with
  | OpenFileReader file_path => open_file_reader file_path w
  | OpenCompressedFileReader file_path => open_compressed_file_reader file_path w
  | OpenCompressedStdin => open_compressed_stdin w
  | OpenStdin => open_stdin w
  | CreateBufferView m data len => create_buffer_view m data len w
  end.

(** The caller's side of [create_buffer_view]: [data, data+len) is the
    range it owns, of a size a [ptrdiff_t] holds. *)
Definition owned_range (q : reader_request) : Prop :=
  match q with
  | CreateBufferView m data len =>
      data = base m /\ len = region_size m /\ region_size m <= PTRDIFF_MAX
  | _ => True
  end.

(** The codec fails on none of the reads [reqs] of the reader [r] (only a
    compressed-file reader asks the codec). *)
Definition codec_succeeds (r : reader) (w : world G) (reqs : list Z) : Prop :=
  match r with
  | GzipFileAdapter a =>
      zlib.reads_succeed c (gzip_file_adapter._gz_file a) (w_gz w) (to_unsigned_int <$> reqs)
  | _ => True
  end.

End dispatch.

End io.

(** ** A codec that stores the bytes as they are *)

(** It keeps zlib's rules about failure: a length that does not fit an
    [int] makes [gzread] and [gzwrite] fail, a file that has failed keeps its
    error, and on a file with an error [gzread], [gzwrite] and [gzseek]
    fail. *)
Module stored.

(** An open gz file: its path, the offset of the next byte, the mode it
    was opened with, and whether it has an error. *)
Record handle := { h_path : string; h_pos : Z; h_mode : string; h_err : bool }.

(** The gz files by path and the open handles; handle [k] has address [k+1]. *)
Record state := { gz_files : gmap string (list byte); handles : gmap nat handle }.

Definition lookup (g : state) (h : Z) : option handle :=
  if h <=? 0 then None else handles g !! Z.to_nat (h - 1).

Definition set_handle (g : state) (h : Z) (hd : handle) : state :=
  {| gz_files := gz_files g; handles := <[Z.to_nat (h - 1) := hd]> (handles g) |}.

Definition failed (hd : handle) : handle :=
  {| h_path := h_path hd; h_pos := h_pos hd; h_mode := h_mode hd; h_err := true |}.

Definition install (g : state) (hd : handle) : Z * state :=
  let k := fresh (dom (handles g)) in
  (Z.of_nat k + 1, {| gz_files := gz_files g; handles := <[k := hd]> (handles g) |}).

Definition gzopen (g : state) (path mode : string) : Z * state :=
  if String.eqb mode "rb" then
    match gz_files g !! path with
    | None => (zlib.Z_NULL, g)
    | Some _ => install g {| h_path := path; h_pos := 0; h_mode := "rb"; h_err := false |}
    end
  else if String.eqb path "" then (zlib.Z_NULL, g)
  else install {| gz_files := <[path := []]> (gz_files g); handles := handles g |}
               {| h_path := path; h_pos := 0; h_mode := "wb"; h_err := false |}.

Definition gzdopen (g : state) (fd : Z) (mode : string) : Z * state := (zlib.Z_NULL, g).

Definition gzread (g : state) (h len : Z) : (Z * list byte) * state :=
  match lookup g h with
  | Some hd =>
      if negb (String.eqb (h_mode hd) "rb") || h_err hd then ((-1, []), g)
      else if to_int len <? 0 then ((-1, []), set_handle g h (failed hd))
      else
        let bytes := take (Z.to_nat len)
                       (drop (Z.to_nat (h_pos hd)) (default [] (gz_files g !! h_path hd))) in
        ((Z.of_nat (length bytes), bytes),
         set_handle g h {| h_path := h_path hd; h_pos := h_pos hd + Z.of_nat (length bytes);
                           h_mode := h_mode hd; h_err := false |})
  | None => ((-1, []), g)
  end.

Definition gzwrite (g : state) (h : Z) (bytes : list byte) (len : Z) : Z * state :=
  match lookup g h with
  | Some hd =>
      if negb (String.eqb (h_mode hd) "wb") || h_err hd then (0, g)
      else if to_int len <? 0 then (0, set_handle g h (failed hd))
      else
        (len, {| gz_files := alter (fun old => old ++ bytes) (h_path hd) (gz_files g);
                 handles := handles g |})
  | None => (0, g)
  end.

Definition gzseek (g : state) (h offset whence : Z) : Z * state :=
  match lookup g h with
  | Some hd =>
      if (whence =? zlib.SEEK_SET) && (0 <=? offset) && String.eqb (h_mode hd) "rb"
         && negb (h_err hd)
      then (offset, set_handle g h {| h_path := h_path hd; h_pos := offset;
                                      h_mode := h_mode hd; h_err := false |})
      else (-1, g)
  | None => (-1, g)
  end.

Definition gzclose (g : state) (h : Z) : Z * state :=
  match lookup g h with
  | Some _ => (0, {| gz_files := gz_files g; handles := delete (Z.to_nat (h - 1)) (handles g) |})
  | None => (-2, g)
  end.

Definition codec : zlib.codec state :=
  {| zlib.gzopen := gzopen; zlib.gzdopen := gzdopen; zlib.gzread := gzread;
     zlib.gzwrite := gzwrite; zlib.gzseek := gzseek; zlib.gzclose := gzclose |}.

End stored.

(** ** Callers of the adapters *)

(** The bytes a call asks the system or the codec for: [(unsigned int)num_bytes]. *)
Definition as_unsigned_int (num_bytes : Z) : nat := Z.to_nat (to_unsigned_int num_bytes).

(** The bytes a call asks a stream or a view for when [num_bytes] is taken as it is. *)
Definition as_count (num_bytes : Z) : nat := Z.to_nat num_bytes.

(** What a sequence of requests asks for in all, each request counted by [cap]. *)
Definition asked (cap : Z -> nat) (reqs : list Z) : nat :=
  foldr (fun n acc => (cap n + acc)%nat) 0%nat reqs.

(** The factories that hand out a plain-file writer, and a caller that
    writes whole byte sequences through it. *)
Module file_io.

(** [VW::io::open_file_writer] *)
Definition open_file_writer (file_path : string) (s : posix.state)
  : outcome (file_adapter.t * posix.state) :=
  file_adapter.new (c_str file_path) file_mode.write s.

(** [VW::io::open_file_reader], on the system alone. *)
Definition open_file_reader (file_path : string) (s : posix.state)
  : outcome (file_adapter.t * posix.state) :=
  file_adapter.new (c_str file_path) file_mode.read s.

(** [w->write(chunk.data(), chunk.size())] for each chunk in turn. *)
Fixpoint write_seq (a : file_adapter.t) (s : posix.state) (chunks : list (list byte))
  : outcome (file_adapter.t * posix.state * list Z) :=
  match chunks with
  | [] => Ret (a, s, [])
  | chunk :: chunks =>
      '(a, s, n) ← file_adapter.write a s {| base := 0; contents := chunk |} 0
                     (Z.of_nat (length chunk));
      '(a, s, ns) ← write_seq a s chunks;
      Ret (a, s, n :: ns)
  end.

(** The file a path must name for [open] to succeed with the flags of [mode]. *)
Definition openable (s : posix.state) (filename : string) (mode : file_mode.t) : bool :=
  match mode, posix.files s !! filename with
  | file_mode.read, Some f => posix.may_read f
  | file_mode.read, None => false
  | file_mode.write, Some f => posix.may_write f
  | file_mode.write, None => true
  end.

(** The errno of the [open] that fails. *)
Definition open_errno (s : posix.state) (filename : string) : Z :=
  match posix.files s !! filename with
  | Some _ => posix.EACCES
  | None => posix.ENOENT
  end.

(** The system while a writer on descriptor [k] has put the bytes [d] into
    the file at [p], which it created or emptied. *)
Definition writing (s : posix.state) (p : string) (mr : bool) (k : nat) (d : list byte)
  : posix.state :=
  {| posix.files := <[p := {| posix.data := d; posix.may_read := mr; posix.may_write := true |}]>
                      (posix.files s);
     posix.fds := <[k := posix.Regular p (Z.of_nat (length d)) false true]> (posix.fds s) |}.

End file_io.

(** ** vector_writer over the vector it shares with its caller *)

Module vector_sink.

(** [struct vector_writer]: [_buffer], a [std::shared_ptr<std::vector<char>>],
    is the address of the vector. *)
Record t := { _buffer : nat }.

(** [vector_writer::vector_writer(std::shared_ptr<std::vector<char>>& buffer)] *)
Definition new (buffer : nat) : t := {| _buffer := buffer |}.

(** [VW::io::create_vector_writer] *)
Definition create_vector_writer (buffer : nat) : t := new buffer.

(** [vector_writer::write] through [_buffer], the vectors being in [store]. *)
Definition write (a : t) (store : gmap nat vector_writer.vector) (chunk : list byte)
  : outcome (gmap nat vector_writer.vector * Z) :=
  match store !! _buffer a with
  | None => Fault
  | Some v =>
      '(v, n) ← vector_writer.write_bytes v chunk;
      Ret (<[_buffer a := v]> store, n)
  end.

(** Writes through several writers, in the order of the calls. *)
Fixpoint write_all (store : gmap nat vector_writer.vector) (calls : list (t * list byte))
  : outcome (gmap nat vector_writer.vector * list Z) :=
  match calls with
  | [] => Ret (store, [])
  | (a, chunk) :: calls =>
      '(store, n) ← write a store chunk;
      '(store, ns) ← write_all store calls;
      Ret (store, n :: ns)
  end.

(** The bytes that the calls wrote through writers over the vector at [buffer]. *)
Definition written_to (buffer : nat) (calls : list (t * list byte)) : list byte :=
  concat (snd <$> filter (fun call => _buffer (fst call) = buffer) calls).

End vector_sink.

(** ** A caller that sends whole byte sequences through a socket writer *)

Module socket_io.

(** [w->write(chunk.data(), chunk.size())] for each chunk in turn. *)
Fixpoint write_seq (a : socket.socket_adapter) (s : posix.state) (chunks : list (list byte))
  : outcome (socket.socket_adapter * posix.state * list Z) :=
  match chunks with
  | [] => Ret (a, s, [])
  | chunk :: chunks =>
      '(a, s, n) ← socket.write a s {| base := 0; contents := chunk |} 0
                     (Z.of_nat (length chunk));
      '(a, s, ns) ← write_seq a s chunks;
      Ret (a, s, n :: ns)
  end.

End socket_io.
(** * Properties *)

Section conversions.

Lemma to_size_t_small z : 0 <= z <= SIZE_MAX -> to_size_t z = z.
Proof. unfold to_size_t, SIZE_MAX. intros. apply Z.mod_small. lia. Qed.

Lemma to_ssize_t_small z : - 2 ^ 63 <= z <= PTRDIFF_MAX -> to_ssize_t z = z.
Proof.
  unfold to_ssize_t, PTRDIFF_MAX. intros.
  rewrite Z.mod_small; lia.
Qed.

End conversions.

Section buffer_view_facts.
Import buffer_view.

Lemma clipped_fits bv n :
  cursor_inv bv -> _len bv <= PTRDIFF_MAX -> fits_ptrdiff n ->
  clipped bv n = Z.min (_data bv + _len bv - _read_head bv) n.
Proof.
  unfold cursor_inv, fits_ptrdiff, clipped, to_ptrdiff_t. intros Hc Hl Hn.
  rewrite (to_ssize_t_small n) by (unfold PTRDIFF_MAX in *; lia).
  apply to_size_t_small. unfold SIZE_MAX, PTRDIFF_MAX in *. lia.
Qed.

Lemma read_fits m bv n :
  view_over m bv -> region_size m <= PTRDIFF_MAX -> cursor_inv bv -> fits_ptrdiff n ->
  let k := Z.min (_data bv + _len bv - _read_head bv) n in
  read m bv n =
    Ret ({| _data := _data bv; _read_head := _read_head bv + k; _len := _len bv |},
         (take (Z.to_nat k) (drop (Z.to_nat (_read_head bv - _data bv)) (contents m)), k)).
Proof.
  intros [Hd Hl] Hm Hc Hn k. unfold read.
  rewrite clipped_fits by (auto; lia). fold k.
  assert (Hk : 0 <= k <= PTRDIFF_MAX) by (unfold cursor_inv, fits_ptrdiff in *; lia).
  destruct (Z.eqb_spec k 0) as [-> | Hk0].
  - destruct bv; simpl. rewrite Z.add_0_r. reflexivity.
  - unfold region_load.
    assert (Hchk : (base m <=? _read_head bv) && (0 <=? k)
                   && (_read_head bv + k <=? base m + region_size m) = true).
    { unfold cursor_inv in Hc. rewrite !andb_true_iff, !Z.leb_le. lia. }
    rewrite Hchk, Hd. rewrite to_ssize_t_small by (unfold PTRDIFF_MAX in *; lia).
    reflexivity.
Qed.

Lemma read_preserves m bv n bv' r :
  read m bv n = Ret (bv', r) -> _data bv' = _data bv /\ _len bv' = _len bv.
Proof.
  unfold read. destruct (clipped bv n =? 0); [intros [= <- _]; auto |].
  destruct (region_load _ _ _); [intros [= <- _]; auto | discriminate].
Qed.

Lemma total_count_cons r rs : total_count (r :: rs) = snd r + total_count rs.
Proof. reflexivity. Qed.

Lemma all_bytes_cons r rs : all_bytes (r :: rs) = fst r ++ all_bytes rs.
Proof. reflexivity. Qed.

Lemma sum_Z_nonneg reqs : Forall fits_ptrdiff reqs -> 0 <= sum_Z reqs.
Proof.
  induction 1 as [| n reqs Hn _ IH]; simpl; [lia |].
  unfold fits_ptrdiff in Hn. lia.
Qed.

(** A sequence of reads with sizes that fit [ptrdiff_t] advances the cursor
    by the smaller of what is left and what was asked for, and returns
    exactly those bytes. *)
Lemma read_seq_fits m reqs : forall bv,
  view_over m bv -> region_size m <= PTRDIFF_MAX -> cursor_inv bv ->
  Forall fits_ptrdiff reqs ->
  let k := Z.min (_data bv + _len bv - _read_head bv) (sum_Z reqs) in
  exists outs,
    read_seq m bv reqs =
      Ret ({| _data := _data bv; _read_head := _read_head bv + k; _len := _len bv |}, outs)
    /\ total_count outs = k
    /\ all_bytes outs =
         take (Z.to_nat k) (drop (Z.to_nat (_read_head bv - _data bv)) (contents m)).
Proof.
  induction reqs as [| n reqs IH]; intros bv Hv Hm Hc Hr k.
  - exists []. subst k. simpl. unfold cursor_inv in Hc.
    rewrite Z.min_r by lia. destruct bv; simpl. rewrite Z.add_0_r. auto.
  - inversion Hr as [| ? ? Hn Hr']; subst.
    pose proof (sum_Z_nonneg _ Hr') as Hs.
    simpl. rewrite (read_fits m bv n Hv Hm Hc Hn). simpl.
    set (k1 := Z.min (_data bv + _len bv - _read_head bv) n).
    set (bv1 := {| _data := _data bv; _read_head := _read_head bv + k1; _len := _len bv |}).
    assert (Hk1 : 0 <= k1 <= _data bv + _len bv - _read_head bv)
      by (unfold cursor_inv, fits_ptrdiff in *; lia).
    destruct (IH bv1) as (outs & Hrun & Htot & Hbytes); try assumption.
    { unfold cursor_inv, bv1; simpl. unfold cursor_inv in Hc. lia. }
    rewrite Hrun. simpl in Hrun, Htot, Hbytes |- *.
    set (k2 := Z.min (_data bv + _len bv - (_read_head bv + k1)) (sum_Z reqs)) in *.
    assert (Hk : k = k1 + k2) by (subst k k1 k2; simpl; unfold fits_ptrdiff in Hn; lia).
    assert (Hk2 : 0 <= k2) by (subst k2; lia).
    eexists. split; [rewrite Hk, Z.add_assoc; reflexivity |]. split.
    + rewrite total_count_cons, Htot. simpl. lia.
    + rewrite all_bytes_cons, Hbytes. simpl.
      replace (Z.to_nat (_read_head bv + k1 - _data bv))
        with (Z.to_nat (_read_head bv - _data bv) + Z.to_nat k1)%nat
        by (unfold cursor_inv in Hc; lia).
      rewrite <- drop_drop, take_take_drop. f_equal. lia.
Qed.

End buffer_view_facts.

(** ** C1: the socket's descriptor is closed once, by the last owner *)

Section claim_C1.
Import socket.

Lemma shared_copy_live p fd n :
  shared_copy p (shared_heap p fd (S n)) = Ret (shared_heap p fd (S (S n))).
Proof.
  unfold shared_copy; simpl. rewrite lookup_singleton_eq; simpl.
  rewrite insert_singleton_eq. reflexivity.
Qed.

Lemma shared_release_live p fd n :
  shared_release p (shared_heap p fd (S n)) = Ret (shared_heap p fd n).
Proof.
  unfold shared_release; simpl. rewrite lookup_singleton_eq; simpl.
  destruct n as [| n]; simpl.
  - rewrite delete_singleton_eq. reflexivity.
  - rewrite insert_singleton_eq. reflexivity.
Qed.

Lemma shared_release_dead p fd : shared_release p (shared_heap p fd 0) = Fault.
Proof. unfold shared_release; simpl. rewrite lookup_empty. reflexivity. Qed.

Lemma closer_inv_init fd : closer_inv fd (wrap_socket_descriptor fd).
Proof.
  unfold wrap_socket_descriptor, new, make_shared; simpl.
  exists (fresh (dom (∅ : gmap nat control_block))).
  split; [| split; [| split]]; simpl.
  - intros s [= <-]. reflexivity.
  - intros i ro a Hi. rewrite lookup_empty in Hi. discriminate.
  - intros i _. apply lookup_empty.
  - unfold live_refs; simpl. rewrite map_size_empty; simpl.
    rewrite insert_empty. reflexivity.
Qed.

Lemma derive_inv fd ro c c' :
  closer_inv fd c -> derive ro c = Some c' -> closer_inv fd c'.
Proof.
  intros (p & Hs & Hst & Hfresh & Hmem) Hd. unfold derive in Hd.
  destruct (the_socket c) as [s |] eqn:Es; [| discriminate].
  rewrite (Hs s eq_refl) in *.
  assert (Hget : forall h, get_writer {| sock_fd := fd; sock_closer := p |} h
                           = get_reader {| sock_fd := fd; sock_closer := p |} h)
    by reflexivity.
  assert (Hrun : get_reader {| sock_fd := fd; sock_closer := p |} (mem c)
                 = Ret ({| _socket_fd := fd; _closer := p |},
                        shared_heap p fd (S (live_refs c)))).
  { assert (Hl : live_refs c = S (size (streams c)))
      by (unfold live_refs; rewrite Es; reflexivity).
    unfold get_reader, socket_adapter_new. cbn [sock_fd sock_closer].
    rewrite Hmem, Hl, shared_copy_live. reflexivity. }
  assert (Hc' : c' = {| the_socket := Some {| sock_fd := fd; sock_closer := p |};
                        streams := <[handed_out c := (ro, {| _socket_fd := fd; _closer := p |})]>
                                     (streams c);
                        handed_out := S (handed_out c);
                        mem := shared_heap p fd (S (live_refs c)) |}).
  { destruct ro; [| rewrite Hget in Hd]; rewrite Hrun in Hd; congruence. }
  subst c'. exists p. simpl. split; [| split; [| split]].
  - intros s' [= <-]. reflexivity.
  - intros i ro' a Hi. destruct (decide (handed_out c = i)) as [He | Hne].
    + rewrite <- He, lookup_insert_eq in Hi. congruence.
    + rewrite lookup_insert_ne in Hi by assumption. eauto.
  - intros i Hi. rewrite lookup_insert_ne by lia. apply Hfresh. lia.
  - unfold live_refs; simpl. rewrite Es.
    rewrite map_size_insert_None by (apply Hfresh; lia). reflexivity.
Qed.

Lemma step_inv fd c e c' :
  closer_inv fd c -> step c e = Some c' -> closer_inv fd c'.
Proof.
  intros Hinv Hstep. destruct e as [| | | i]; simpl in Hstep;
    try (eapply derive_inv; eassumption).
  - destruct Hinv as (p & Hs & Hst & Hfresh & Hmem).
    destruct (the_socket c) as [s |] eqn:Es; [| discriminate].
    rewrite (Hs s eq_refl) in Hstep. unfold destroy in Hstep.
    cbn [sock_closer] in Hstep.
    assert (Hl : live_refs c = S (size (streams c)))
      by (unfold live_refs; rewrite Es; reflexivity).
    rewrite Hmem, Hl, shared_release_live in Hstep.
    injection Hstep as <-. exists p; simpl.
    split; [discriminate |]. split; [exact Hst |]. split; [exact Hfresh | reflexivity].
  - destruct Hinv as (p & Hs & Hst & Hfresh & Hmem).
    destruct (streams c !! i) as [[ro a] |] eqn:Ei; [| discriminate].
    rewrite (Hst _ _ _ Ei) in Hstep.
    unfold socket_adapter_destroy in Hstep. cbn [_closer] in Hstep.
    assert (Hsize : size (streams c) = S (size (delete i (streams c)))).
    { rewrite map_size_delete, Ei.
      assert (size (streams c) <> 0%nat)
        by (apply map_size_ne_0_lookup_2 with i; rewrite Ei; eauto).
      lia. }
    assert (Hlive : live_refs c
                    = S (match the_socket c with Some _ => 1 | None => 0 end
                         + size (delete i (streams c)))%nat)
      by (unfold live_refs; rewrite Hsize; lia).
    rewrite Hmem, Hlive, shared_release_live in Hstep.
    injection Hstep as <-. exists p; simpl.
    split; [exact Hs |]. split; [| split; [| reflexivity]].
    + intros j ro' a' Hj. destruct (decide (i = j)) as [-> | Hne].
      * rewrite lookup_delete_eq in Hj. discriminate.
      * rewrite lookup_delete_ne in Hj by assumption. eauto.
    + intros j Hj. destruct (decide (i = j)) as [-> | Hne].
      * apply lookup_delete_eq.
      * rewrite lookup_delete_ne by assumption. auto.
Qed.

Lemma run_inv fd es : forall c c',
  closer_inv fd c -> run c es = Some c' -> closer_inv fd c'.
Proof.
  induction es as [| e es IH]; intros c c' Hinv Hrun; simpl in Hrun.
  - congruence.
  - destruct (step c e) as [c1 |] eqn:E; [| discriminate].
    eapply IH; [eapply step_inv; eassumption | exact Hrun].
Qed.

Lemma closes_of_inv fd c :
  closer_inv fd c ->
  closes (mem c) = (if Nat.eqb (live_refs c) 0 then [fd] else []).
Proof.
  intros (p & _ & _ & _ & ->). destruct (live_refs c); reflexivity.
Qed.

(** C1.  Whatever the caller does with a socket made by
    [wrap_socket_descriptor fd] and the reader-role and writer-role streams
    it derives from it (deriving while the socket lives, destroying live
    objects in any order), at every moment the descriptor has been closed
    not at all while a reference lives, and exactly once, by one
    [close(fd)], when none lives any more: the step that destroys the last
    live reference is the one that closes, and nothing can follow it. *)
Theorem socket_closed_once_by_last_owner (fd : Z) (es : list event) (c : caller) :
  run (wrap_socket_descriptor fd) es = Some c ->
  closes (mem c) = (if Nat.eqb (live_refs c) 0 then [fd] else [])
  /\ (forall e c', step c e = Some c' ->
        closes (mem c') = closes (mem c) ++ (if Nat.eqb (live_refs c') 0 then [fd] else [])
        /\ live_refs c <> 0%nat).
Proof.
  intros Hrun.
  pose proof (run_inv fd es _ _ (closer_inv_init fd) Hrun) as Hinv.
  split; [apply closes_of_inv; exact Hinv |].
  intros e c' Hstep.
  pose proof (step_inv fd c e c' Hinv Hstep) as Hinv'.
  rewrite (closes_of_inv fd c Hinv), (closes_of_inv fd c' Hinv').
  assert (Hlive : live_refs c <> 0%nat).
  { intros Hz. unfold live_refs in Hz.
    destruct (the_socket c) as [s |] eqn:Es; [simpl in Hz; lia |].
    simpl in Hz. apply map_size_empty_inv in Hz.
    destruct e; simpl in Hstep; unfold derive in Hstep;
      rewrite ?Es, ?Hz, ?lookup_empty in Hstep; discriminate. }
  split; [| exact Hlive].
  destruct (live_refs c); [congruence | reflexivity].
Qed.

Lemma socket_closed_once_by_last_owner_witness :
  exists c,
    run (wrap_socket_descriptor 7) [GetReader; GetWriter; DestroyStream 0; DestroySocket;
                                    DestroyStream 1] = Some c
    /\ live_refs c = 0%nat /\ closes (mem c) = [7].
Proof.
  eexists. split; [vm_compute; reflexivity |].
  split; [vm_compute; reflexivity |].
  refine (proj1 (socket_closed_once_by_last_owner 7
           [GetReader; GetWriter; DestroyStream 0; DestroySocket; DestroyStream 1] _ _)).
  vm_compute. reflexivity.
Defined.

End claim_C1.

(** ** C2 and C3: opening a file *)

Section opening.

Lemma open_value s path fl :
  posix.value (fst (posix.open s path fl)) = -1
  \/ exists k : nat,
       posix.value (fst (posix.open s path fl)) = Z.of_nat k
       /\ exists d, posix.lookup_fd (snd (posix.open s path fl)) (Z.of_nat k) = Some d
                    /\ d = posix.Regular path 0 (match fl with posix.O_RDONLY => true | _ => false end)
                                              (match fl with posix.O_RDONLY => false | _ => true end).
Proof.
  assert (Hinst : forall s' d, exists k : nat,
             posix.value (fst (posix.install s' d)) = Z.of_nat k
             /\ exists d', posix.lookup_fd (snd (posix.install s' d)) (Z.of_nat k) = Some d'
                           /\ d' = d).
  { intros s' d. eexists. split; [reflexivity |]. exists d. split; [| reflexivity].
    unfold posix.lookup_fd, posix.install; simpl.
    replace (Z.of_nat _ <? 0) with false by (symmetry; apply Z.ltb_ge; lia).
    rewrite Nat2Z.id. apply lookup_insert_eq. }
  unfold posix.open. destruct (String.eqb path ""); [left; reflexivity |].
  destruct fl; destruct (posix.files s !! path) as [f |].
  - destruct (posix.may_read f); [right; apply Hinst | left; reflexivity].
  - left; reflexivity.
  - destruct (posix.may_write f); [right; apply Hinst | left; reflexivity].
  - right; apply Hinst.
Qed.

(** The plain-file adapter reports an open that failed on a non-empty
    path: the constructor throws, with the errno that [open] left. *)
Lemma file_adapter_open_failure_throws s filename mode :
  let fl := match mode with
            | file_mode.read => posix.O_RDONLY
            | file_mode.write => posix.O_CREAT_WRONLY_TRUNC
            end in
  posix.value (fst (posix.open s filename fl)) = -1 ->
  filename <> "" ->
  file_adapter.new filename mode s
    = Throw {| what := "can't open: " +:+ filename;
               os_error := posix.errno (fst (posix.open s filename fl)) |}.
Proof.
  intros fl Hfail Hne. unfold file_adapter.new.
  assert (Hopen : match mode with
                  | file_mode.read => posix.open s filename posix.O_RDONLY
                  | file_mode.write => posix.open s filename posix.O_CREAT_WRONLY_TRUNC
                  end = posix.open s filename fl) by (destruct mode; reflexivity).
  rewrite Hopen. destruct (posix.open s filename fl) as [r s'] eqn:E. simpl in *.
  rewrite Hfail. simpl.
  destruct (String.eqb_spec filename ""); [contradiction |]. reflexivity.
Qed.

(** C2, where the code falls short of it.  The constructor of the
    compressed-file adapter does not look at what [gzopen] returned: when
    the codec cannot open the file and returns [Z_NULL], construction still
    returns, with an adapter that holds the null handle; no error is
    reported.  (The plain-file adapter does report it, see
    [file_adapter_open_failure_throws].) *)
Theorem gzip_file_adapter_open_failure_unreported
    {G : Type} (c : zlib.codec G) (g g' : G) (filename : string) (mode : file_mode.t) :
  zlib.gzopen c g filename (file_mode.arg mode) = (zlib.Z_NULL, g') ->
  gzip_file_adapter.new c filename mode g
    = Ret ({| gzip_file_adapter._gz_file := zlib.Z_NULL; gzip_file_adapter._mode := mode |}, g').
Proof. intros H. unfold gzip_file_adapter.new. rewrite H. reflexivity. Qed.

Lemma gzip_file_adapter_open_failure_unreported_witness :
  let g := {| stored.gz_files := ∅; stored.handles := ∅ |} in
  gzip_file_adapter.new stored.codec "/no/such/file.gz" file_mode.read g
    = Ret ({| gzip_file_adapter._gz_file := zlib.Z_NULL;
              gzip_file_adapter._mode := file_mode.read |}, g).
Proof.
  intros g.
  apply (gzip_file_adapter_open_failure_unreported stored.codec g g "/no/such/file.gz"
           file_mode.read).
  reflexivity.
Defined.

(** C3 (as amended).  Opening a file adapter on the empty path returns
    with no error, in either mode, and leaves the adapter holding the
    descriptor -1; every read on the adapter opened for reading then
    delivers no bytes and returns -1, the failure value of the system's
    [read], and leaves adapter and system as they were (so every later read
    does the same). *)
Theorem file_adapter_empty_path (s : posix.state) (mode : file_mode.t) (num_bytes : Z) :
  file_adapter.new "" mode s
    = Ret ({| file_adapter._file_descriptor := -1; file_adapter._mode := mode |}, s)
  /\ file_adapter.read
       {| file_adapter._file_descriptor := -1; file_adapter._mode := file_mode.read |} s num_bytes
     = Ret ({| file_adapter._file_descriptor := -1; file_adapter._mode := file_mode.read |}, s,
            ([], -1)).
Proof.
  split.
  - unfold file_adapter.new. destruct mode; reflexivity.
  - reflexivity.
Qed.

(** C3 (as stated) fails on a system with no files: the adapter opened on
    the empty path for reading is constructed, and a read of 16 bytes
    returns -1, not zero. *)
Lemma file_adapter_empty_path_read_is_error :
  let s := {| posix.files := ∅; posix.fds := ∅ |} in
  exists a,
    file_adapter.new "" file_mode.read s = Ret (a, s)
    /\ file_adapter.read a s 16 = Ret (a, s, ([], -1))
    /\ -1 <> 0.
Proof. eexists. split; [reflexivity |]. split; [reflexivity | discriminate]. Qed.

End opening.

(** ** C4: reset on an adapter that is not resettable *)

Section claim_C4.

(** C4.  A reader that is not resettable is a socket adapter, the plain
    stdio adapter or the compressed stdio adapter, and [reset] on it is the
    inherited [reader::reset], whose assertion fails: the call aborts, it
    does not return, so no later read sees a stream that a reset has
    touched. *)
Theorem non_resettable_reset_aborts {G : Type} (c : zlib.codec G)
    (r : io.reader) (w : io.world G) :
  io.is_resettable r = false ->
  io.reset c r w = Abort
  /\ ((exists a, r = io.SocketAdapter a) \/ r = io.StdioAdapter
      \/ exists a, r = io.GzipStdioAdapter a).
Proof.
  intros Hr. destruct r; try discriminate Hr; (split; [reflexivity |]); eauto.
Qed.

Lemma non_resettable_reset_aborts_witness :
  let w := {| io.w_os := {| posix.files := ∅; posix.fds := ∅ |};
              io.w_gz := {| stored.gz_files := ∅; stored.handles := ∅ |};
              io.w_cin := {| iostream.pending := []; iostream.in_good := true |};
              io.w_cout := {| iostream.written := []; iostream.room := None;
                              iostream.out_good := true |} |} in
  io.reset stored.codec io.StdioAdapter w = Abort.
Proof.
  intros w.
  apply (non_resettable_reset_aborts stored.codec io.StdioAdapter w). reflexivity.
Defined.

End claim_C4.

(** ** C5: the mode of a file-backed adapter *)

Section claim_C5.

(** C5.  A file-backed adapter, plain or compressed, constructed for
    writing aborts on [read] and one constructed for reading aborts on
    [write], by the failed assertion and not by a returned error; a call in
    the adapter's own mode, and [reset], return (a compressed write whose
    buffer range is not readable memory faults instead) and leave the
    adapter, and with it its mode, as constructed. *)
Theorem file_modes_asserted_and_fixed {G : Type} (c : zlib.codec G)
    (fd gz_file : Z) (mode : file_mode.t) (s : posix.state) (g : G)
    (m : region) (buffer num_bytes : Z) :
  let fr := {| file_adapter._file_descriptor := fd; file_adapter._mode := file_mode.read |} in
  let fw := {| file_adapter._file_descriptor := fd; file_adapter._mode := file_mode.write |} in
  let fa := {| file_adapter._file_descriptor := fd; file_adapter._mode := mode |} in
  let zr := {| gzip_file_adapter._gz_file := gz_file; gzip_file_adapter._mode := file_mode.read |} in
  let zw := {| gzip_file_adapter._gz_file := gz_file; gzip_file_adapter._mode := file_mode.write |} in
  let za := {| gzip_file_adapter._gz_file := gz_file; gzip_file_adapter._mode := mode |} in
  file_adapter.read fw s num_bytes = Abort
  /\ file_adapter.write fr s m buffer num_bytes = Abort
  /\ gzip_file_adapter.read c zw g num_bytes = Abort
  /\ gzip_file_adapter.write c zr g m buffer num_bytes = Abort
  /\ (exists s' out, file_adapter.read fr s num_bytes = Ret (fr, s', out))
  /\ (exists s' n, file_adapter.write fw s m buffer num_bytes = Ret (fw, s', n))
  /\ (exists s', file_adapter.reset fa s = Ret (fa, s'))
  /\ (exists g' out, gzip_file_adapter.read c zr g num_bytes = Ret (zr, g', out))
  /\ (gzip_file_adapter.write c zw g m buffer num_bytes = Fault
      \/ exists g' n, gzip_file_adapter.write c zw g m buffer num_bytes = Ret (zw, g', n))
  /\ (exists g', gzip_file_adapter.reset c za g = Ret (za, g')).
Proof.
  intros fr fw fa zr zw za.
  repeat (split; [reflexivity |]).
  split.
  { unfold file_adapter.read; simpl.
    destruct (posix.read s fd (to_unsigned_int num_bytes)) as [[r bytes] s']. eauto. }
  split.
  { unfold file_adapter.write; simpl.
    destruct (posix.write s fd m buffer (to_unsigned_int num_bytes)) as [r s']. eauto. }
  split.
  { unfold file_adapter.reset; simpl. destruct (posix.lseek s fd 0) as [r s']. eauto. }
  split.
  { unfold gzip_file_adapter.read; simpl.
    destruct (zlib.gzread c g gz_file (to_unsigned_int num_bytes)) as [[r bytes] g']. eauto. }
  split.
  { unfold gzip_file_adapter.write; simpl.
    destruct (region_load m buffer (to_unsigned_int num_bytes)) as [bytes |]; [| left; reflexivity].
    destruct (zlib.gzwrite c g gz_file bytes (to_unsigned_int num_bytes)) as [w g']. eauto. }
  unfold gzip_file_adapter.reset; simpl.
  destruct (zlib.gzseek c g gz_file 0 zlib.SEEK_SET) as [r g']. eauto.
Qed.

End claim_C5.

(** ** C6: what a compressed adapter returns *)

Section claim_C6.

Lemma to_int_range z : - 2 ^ 31 <= to_int z < 2 ^ 31.
Proof. unfold to_int. pose proof (Z.mod_pos_bound (z + 2 ^ 31) (2 ^ 32)). lia. Qed.

Lemma gz_count_int z : gz_count (to_int z) = zero_unless_positive (to_int z).
Proof.
  pose proof (to_int_range z) as Hr.
  unfold gz_count, zero_unless_positive.
  destruct (Z.gtb_spec (to_int z) 0) as [Hpos | Hle].
  - replace (0 <? to_int z) with true by (symmetry; apply Z.ltb_lt; lia).
    rewrite to_size_t_small by (unfold SIZE_MAX; lia).
    apply to_ssize_t_small. unfold PTRDIFF_MAX. lia.
  - replace (0 <? to_int z) with false by (symmetry; apply Z.ltb_ge; lia).
    reflexivity.
Qed.

Lemma zero_unless_positive_spec k :
  0 <= zero_unless_positive k
  /\ (0 < k -> zero_unless_positive k = k)
  /\ (k <= 0 -> zero_unless_positive k = 0).
Proof.
  unfold zero_unless_positive.
  destruct (Z.ltb_spec 0 k); repeat split; intros; lia.
Qed.

(** C6.  Every read and write of the compressed-file adapter (in its
    mode) and of the compressed-stdio adapter calls the codec once, on the
    adapter's handle with the count as an [unsigned int], and returns the
    codec's [int] count when that is positive and exactly zero otherwise;
    no negative value of the codec reaches the caller.  (A write whose
    buffer range is not readable memory faults before the codec is
    called.) *)
Theorem gzip_counts_normalized {G : Type} (c : zlib.codec G)
    (gz_file gz_stdin gz_stdout : Z) (g : G) (m : region) (buffer num_bytes : Z) :
  let zr := {| gzip_file_adapter._gz_file := gz_file; gzip_file_adapter._mode := file_mode.read |} in
  let zw := {| gzip_file_adapter._gz_file := gz_file; gzip_file_adapter._mode := file_mode.write |} in
  let zs := {| gzip_stdio_adapter._gz_stdin := gz_stdin;
               gzip_stdio_adapter._gz_stdout := gz_stdout |} in
  let len := to_unsigned_int num_bytes in
  let counted (r : Z) := zero_unless_positive (to_int r) in
  let written {A : Type} (a : A) (h : Z) : outcome (A * G * Z) :=
    match region_load m buffer len with
    | None => Fault
    | Some bytes =>
        Ret (a, snd (zlib.gzwrite c g h bytes len), counted (fst (zlib.gzwrite c g h bytes len)))
    end in
  gzip_file_adapter.read c zr g num_bytes
    = Ret (zr, snd (zlib.gzread c g gz_file len),
           (snd (fst (zlib.gzread c g gz_file len)),
            counted (fst (fst (zlib.gzread c g gz_file len)))))
  /\ gzip_stdio_adapter.read c zs g num_bytes
     = Ret (zs, snd (zlib.gzread c g gz_stdin len),
            (snd (fst (zlib.gzread c g gz_stdin len)),
             counted (fst (fst (zlib.gzread c g gz_stdin len)))))
  /\ gzip_file_adapter.write c zw g m buffer num_bytes = written zw gz_file
  /\ gzip_stdio_adapter.write c zs g m buffer num_bytes = written zs gz_stdout
  /\ (forall r, counted r = Z.max 0 (to_int r)).
Proof.
  intros zr zw zs len counted written. subst counted written. simpl.
  unfold gzip_file_adapter.read, gzip_stdio_adapter.read,
    gzip_file_adapter.write, gzip_stdio_adapter.write; simpl. fold len.
  split; [| split; [| split; [| split]]].
  - destruct (zlib.gzread c g gz_file len) as [[r bytes] g']; simpl.
    rewrite gz_count_int. reflexivity.
  - destruct (zlib.gzread c g gz_stdin len) as [[r bytes] g']; simpl.
    rewrite gz_count_int. reflexivity.
  - destruct (region_load m buffer len) as [bytes |]; [| reflexivity].
    destruct (zlib.gzwrite c g gz_file bytes len) as [w g']; simpl.
    rewrite gz_count_int. reflexivity.
  - destruct (region_load m buffer len) as [bytes |]; [| reflexivity].
    destruct (zlib.gzwrite c g gz_stdout bytes len) as [w g']; simpl.
    rewrite gz_count_int. reflexivity.
  - intros r. destruct (zero_unless_positive_spec (to_int r)) as (_ & Hpos & Hle).
    destruct (Z.lt_ge_cases 0 (to_int r)); [rewrite Hpos | rewrite Hle]; lia.
Qed.

End claim_C6.

(** ** C7: a buffer view hands out its range once *)

Section claim_C7.
Import buffer_view.

(** C7 (as amended).  For a buffer view over a source of length L that a
    [ptrdiff_t] holds, every sequence of read calls whose requested sizes
    each fit [ptrdiff_t] and sum to more than L returns exactly L bytes in
    total (the source itself) and zero on every call thereafter; after
    every call of the sequence, and after a reset there, the cursor
    invariant [data <= read_head <= data + len] holds, and every read
    returns bytes from inside the range (none faults by copying past
    [data + len]). *)
Theorem buffer_view_reads_exhaust (m : region) (reqs : list Z) :
  region_size m <= PTRDIFF_MAX ->
  Forall fits_ptrdiff reqs ->
  region_size m < sum_Z reqs ->
  (exists bv' outs,
      read_seq m (new (base m) (region_size m)) reqs = Ret (bv', outs)
      /\ total_count outs = region_size m
      /\ all_bytes outs = contents m
      /\ forall n, fits_ptrdiff n -> read m bv' n = Ret (bv', ([], 0)))
  /\ (forall pre, pre `prefix_of` reqs ->
      exists bv outs,
        read_seq m (new (base m) (region_size m)) pre = Ret (bv, outs)
        /\ cursor_inv bv /\ cursor_inv (reset bv)
        /\ all_bytes outs = take (Z.to_nat (total_count outs)) (contents m))
  /\ (forall bv n, view_over m bv -> cursor_inv bv -> fits_ptrdiff n ->
      _read_head bv + clipped bv n <= _data bv + _len bv).
Proof.
  intros Hm Hr Hsum.
  set (bv0 := new (base m) (region_size m)).
  assert (Hv : view_over m bv0) by (split; reflexivity).
  assert (Hsz : 0 <= region_size m) by (unfold region_size; lia).
  assert (Hc : cursor_inv bv0) by (unfold cursor_inv, bv0; simpl; lia).
  split; [| split].
  - destruct (read_seq_fits m reqs bv0 Hv Hm Hc Hr) as (outs & Hrun & Htot & Hbytes).
    simpl in Hrun, Htot, Hbytes.
    replace (base m + region_size m - base m) with (region_size m) in * by lia.
    rewrite Z.min_l in * by lia.
    eexists _, outs. split; [exact Hrun |]. split; [exact Htot |]. split.
    + rewrite Hbytes, Z.sub_diag. simpl. rewrite drop_0. apply take_ge.
      unfold region_size. lia.
    + intros n Hn. rewrite read_fits; simpl; auto; [| unfold cursor_inv; simpl; lia].
      replace (base m + region_size m - (base m + region_size m)) with 0 by lia.
      unfold fits_ptrdiff in Hn. rewrite Z.min_l by lia.
      rewrite Z.add_0_r. reflexivity.
  - intros pre [suf ->]. apply Forall_app in Hr as [Hpre _].
    destruct (read_seq_fits m pre bv0 Hv Hm Hc Hpre) as (outs & Hrun & Htot & Hbytes).
    pose proof (sum_Z_nonneg _ Hpre) as Hs.
    simpl in Hrun, Htot, Hbytes.
    replace (base m + region_size m - base m) with (region_size m) in * by lia.
    eexists _, outs. split; [exact Hrun |].
    unfold cursor_inv, reset; simpl.
    repeat split; try lia.
    rewrite Hbytes, Htot, Z.sub_diag. simpl. rewrite drop_0. reflexivity.
  - intros bv n [_ Hl] Hcb Hn. rewrite clipped_fits by (auto; lia). lia.
Qed.

Lemma buffer_view_reads_exhaust_witness :
  let m := {| base := 4096; contents := ["a"; "b"; "c"]%byte |} in
  exists bv' outs,
    read_seq m (new 4096 3) [2; 5] = Ret (bv', outs) /\ total_count outs = 3.
Proof.
  intros m.
  destruct (buffer_view_reads_exhaust m [2; 5]) as [(bv' & outs & Hrun & Htot & _) _].
  - unfold region_size, PTRDIFF_MAX; simpl; lia.
  - repeat constructor; unfold PTRDIFF_MAX; lia.
  - unfold region_size, sum_Z; simpl; lia.
  - exists bv', outs. split; [exact Hrun | exact Htot].
Defined.

(** C7 (as stated) fails at a request of 2^63 bytes on a one-byte view:
    the request is a [size_t] and exceeds L, yet the cast to [ptrdiff_t]
    makes it negative, [std::min] keeps it, and [memcpy] is asked for 2^63
    bytes from [read_head], which lies past [data + len]. *)
Lemma buffer_view_read_huge_request :
  let m := {| base := 4096; contents := ["a"]%byte |} in
  let bv := new (base m) (region_size m) in
  (0 <= 2 ^ 63 <= SIZE_MAX) /\ region_size m < sum_Z [2 ^ 63]
  /\ clipped bv (2 ^ 63) = 2 ^ 63
  /\ _data bv + _len bv < _read_head bv + clipped bv (2 ^ 63)
  /\ read_seq m bv [2 ^ 63] = Fault.
Proof. vm_compute. repeat split; congruence. Qed.

End claim_C7.

(** ** C8: the vector sink appends *)

Section claim_C8.
Import vector_writer.

Lemma region_load_whole (bytes : list byte) :
  region_load {| base := 0; contents := bytes |} 0 (Z.of_nat (length bytes)) = Some bytes.
Proof.
  unfold region_load, region_size. simpl.
  replace (0 <=? Z.of_nat (length bytes)) with true by (symmetry; apply Z.leb_le; lia).
  rewrite Z.leb_refl. simpl. rewrite Nat2Z.id, drop_0. f_equal. apply take_ge. lia.
Qed.

Lemma reserve_elems v n : elems (reserve v n) = elems v.
Proof. unfold reserve. destruct (capacity v <? n); reflexivity. Qed.

(** One write: the whole range is appended and the requested count returned. *)
Lemma write_bytes_appends v bytes :
  fits_ptrdiff (Z.of_nat (length bytes)) ->
  exists v', write_bytes v bytes = Ret (v', Z.of_nat (length bytes))
             /\ elems v' = elems v ++ bytes /\ size v' <= capacity v'.
Proof.
  intros Hfit. unfold write_bytes, write. rewrite region_load_whole.
  rewrite to_ssize_t_small by (unfold fits_ptrdiff, PTRDIFF_MAX in *; lia).
  eexists. split; [reflexivity |]. unfold insert_end, size; simpl.
  rewrite reserve_elems. split; [reflexivity |].
  rewrite length_app. lia.
Qed.

(** C8.  Writing the byte sequences A, B, C in order through the vector
    sink leaves the vector holding its former elements followed by
    A ++ B ++ C (so exactly A ++ B ++ C for a vector that started empty),
    whatever their sizes, empty ones included; every write returns, appends
    its full range and returns the full requested count.  The sizes are
    those of byte ranges in memory, which a [ptrdiff_t] holds. *)
Theorem vector_writer_concat (v : vector) (A B C : list byte) :
  fits_ptrdiff (Z.of_nat (length A)) ->
  fits_ptrdiff (Z.of_nat (length B)) ->
  fits_ptrdiff (Z.of_nat (length C)) ->
  exists v1 v2 v3,
    write_bytes v A = Ret (v1, Z.of_nat (length A))
    /\ write_bytes v1 B = Ret (v2, Z.of_nat (length B))
    /\ write_bytes v2 C = Ret (v3, Z.of_nat (length C))
    /\ elems v1 = elems v ++ A /\ elems v2 = elems v1 ++ B /\ elems v3 = elems v2 ++ C
    /\ elems v3 = elems v ++ A ++ B ++ C
    /\ (elems v = [] -> elems v3 = A ++ B ++ C).
Proof.
  intros HA HB HC.
  destruct (write_bytes_appends v A HA) as (v1 & H1 & E1 & _).
  destruct (write_bytes_appends v1 B HB) as (v2 & H2 & E2 & _).
  destruct (write_bytes_appends v2 C HC) as (v3 & H3 & E3 & _).
  exists v1, v2, v3. repeat (split; [assumption |]).
  assert (E : elems v3 = elems v ++ A ++ B ++ C)
    by (rewrite E3, E2, E1, <- !app_assoc; reflexivity).
  split; [exact E |]. intros Hnil. rewrite E, Hnil. reflexivity.
Qed.

Lemma vector_writer_concat_witness :
  exists v3, elems v3 = ["h"; "i"; "!"]%byte
    /\ write_bytes {| elems := ["h"]%byte; capacity := 1 |} [] = Ret ({| elems := ["h"]%byte; capacity := 1 |}, 0).
Proof.
  destruct (vector_writer_concat {| elems := []; capacity := 0 |}
              ["h"]%byte [] ["i"; "!"]%byte) as (v1 & v2 & v3 & _ & _ & _ & _ & _ & _ & _ & E);
    try (unfold fits_ptrdiff, PTRDIFF_MAX; simpl; lia).
  exists v3. split; [apply E; reflexivity | reflexivity].
Defined.

End claim_C8.

(** ** C9: a reset reader reads the same again *)

Section claim_C9.
Context {G : Type} (c : zlib.codec G).

(** Reads that keep an invariant can be chained. *)
Lemma read_seq_under_inv (I : io.reader -> io.world G -> Prop) :
  (forall r w n, I r w -> fits_ptrdiff n ->
     exists r' w' out, io.read c r w n = Ret (r', w', out) /\ I r' w') ->
  forall reqs r w, I r w -> Forall fits_ptrdiff reqs ->
    exists r' w' outs, io.read_seq c r w reqs = Ret (r', w', outs) /\ I r' w'.
Proof.
  intros Hstep. induction reqs as [| n reqs IH]; intros r w HI Hreqs.
  - exists r, w, []. split; [reflexivity | exact HI].
  - inversion Hreqs as [| ? ? Hn Hreqs']; subst.
    destruct (Hstep r w n HI Hn) as (r1 & w1 & out & Hread & HI1).
    destruct (IH r1 w1 HI1 Hreqs') as (r2 & w2 & outs & Hseq & HI2).
    exists r2, w2, (out :: outs). split; [| exact HI2].
    simpl. rewrite Hread. simpl. rewrite Hseq. reflexivity.
Qed.

Lemma lookup_fd_nonneg s fd d : posix.lookup_fd s fd = Some d -> 0 <= fd.
Proof. unfold posix.lookup_fd. destruct (Z.ltb_spec fd 0); [discriminate | lia]. Qed.

Lemma lookup_set_fd s fd d : 0 <= fd -> posix.lookup_fd (posix.set_fd s fd d) fd = Some d.
Proof.
  intros Hfd. unfold posix.lookup_fd, posix.set_fd; simpl.
  replace (fd <? 0) with false by (symmetry; apply Z.ltb_ge; lia).
  apply lookup_insert_eq.
Qed.

Lemma set_fd_twice s fd d d' :
  posix.set_fd (posix.set_fd s fd d) fd d' = posix.set_fd s fd d'.
Proof. unfold posix.set_fd; simpl. rewrite insert_insert_eq. reflexivity. Qed.

Lemma set_fd_same s fd d : posix.lookup_fd s fd = Some d -> posix.set_fd s fd d = s.
Proof.
  unfold posix.lookup_fd, posix.set_fd. destruct (fd <? 0); [discriminate |].
  intros H. rewrite insert_id by exact H. destruct s; reflexivity.
Qed.

Lemma with_os_twice (w : io.world G) s s' : io.with_os (io.with_os w s) s' = io.with_os w s'.
Proof. reflexivity. Qed.

Lemma with_os_same (w : io.world G) : io.with_os w (io.w_os w) = w.
Proof. destruct w; reflexivity. Qed.

(** What [file_adapter::file_adapter] leaves when it returns in read mode:
    a descriptor of the file at offset 0, or -1 and no descriptor. *)
Lemma file_adapter_new_read filename s a s0 :
  file_adapter.new filename file_mode.read s = Ret (a, s0) ->
  file_adapter._mode a = file_mode.read
  /\ (posix.lookup_fd s0 (file_adapter._file_descriptor a)
        = Some (posix.Regular filename 0 true false)
      \/ posix.lookup_fd s0 (file_adapter._file_descriptor a) = None).
Proof.
  unfold file_adapter.new.
  pose proof (open_value s filename posix.O_RDONLY) as Hopen.
  destruct (posix.open s filename posix.O_RDONLY) as [r s'] eqn:E. simpl in Hopen.
  destruct Hopen as [Hfail | (k & Hk & d & Hl & ->)].
  - rewrite Hfail. destruct (_ && _); [discriminate |].
    intros [= <- <-]. simpl. split; [reflexivity | right; reflexivity].
  - rewrite Hk. replace (Z.of_nat k =? -1) with false by (symmetry; apply Z.eqb_neq; lia).
    simpl. intros [= <- <-]. simpl. split; [reflexivity | left; exact Hl].
Qed.

(** The plain file: reads move the offset only, [lseek] puts it back. *)
Lemma file_reader_rereads a (w0 : io.world G) reqs :
  file_adapter._mode a = file_mode.read ->
  (exists path, posix.lookup_fd (io.w_os w0) (file_adapter._file_descriptor a)
                = Some (posix.Regular path 0 true false))
  \/ posix.lookup_fd (io.w_os w0) (file_adapter._file_descriptor a) = None ->
  Forall fits_ptrdiff reqs ->
  exists r1 w1 outs,
    io.read_seq c (io.FileAdapter a) w0 reqs = Ret (r1, w1, outs)
    /\ io.reset c r1 w1 = Ret (io.FileAdapter a, w0).
Proof.
  intros Hmode Hfd Hreqs. destruct a as [fd mode]; simpl in *. subst mode.
  set (a := {| file_adapter._file_descriptor := fd; file_adapter._mode := file_mode.read |}).
  destruct Hfd as [[path H0] | H0].
  - pose proof (lookup_fd_nonneg _ _ _ H0) as Hnn.
    set (I := fun (r : io.reader) (w : io.world G) =>
                r = io.FileAdapter a
                /\ exists off, w = io.with_os w0
                                     (posix.set_fd (io.w_os w0) fd (posix.Regular path off true false))).
    destruct (read_seq_under_inv I) with (reqs := reqs) (r := io.FileAdapter a) (w := w0)
      as (r1 & w1 & outs & Hseq & -> & off & ->); try assumption.
    + intros r w n [-> [off ->]] _.
      unfold io.read, file_adapter.read, posix.read; simpl.
      rewrite lookup_set_fd by assumption. simpl.
      eexists _, _, _. split; [reflexivity |]. split; [reflexivity |].
      eexists. rewrite set_fd_twice. reflexivity.
    + split; [reflexivity |]. exists 0. rewrite set_fd_same by exact H0.
      rewrite with_os_same. reflexivity.
    + eexists _, _, _. split; [exact Hseq |].
      unfold io.reset, file_adapter.reset, posix.lseek; simpl.
      rewrite lookup_set_fd by assumption. simpl.
      rewrite with_os_twice, set_fd_twice, set_fd_same by exact H0.
      rewrite with_os_same. reflexivity.
  - set (I := fun (r : io.reader) (w : io.world G) => r = io.FileAdapter a /\ w = w0).
    destruct (read_seq_under_inv I) with (reqs := reqs) (r := io.FileAdapter a) (w := w0)
      as (r1 & w1 & outs & Hseq & -> & ->); try assumption.
    + intros r w n [-> ->] _.
      unfold io.read, file_adapter.read, posix.read; simpl. rewrite H0. simpl.
      eexists _, _, _. split; [reflexivity |]. split; [reflexivity | apply with_os_same].
    + split; reflexivity.
    + exists (io.FileAdapter a), w0, outs. split; [exact Hseq |].
      unfold io.reset, file_adapter.reset, posix.lseek; simpl. rewrite H0. simpl.
      rewrite with_os_same. reflexivity.
Qed.

(** The compressed file: reads on which the codec does not fail move the
    handle along. *)
Lemma gzip_reads_while_ok h g0 (w : io.world G) reqs : forall g1,
  let a := {| gzip_file_adapter._gz_file := h; gzip_file_adapter._mode := file_mode.read |} in
  zlib.gz_reads_ok c h g0 g1 ->
  zlib.reads_succeed c h g1 (to_unsigned_int <$> reqs) ->
  exists g2 outs,
    io.read_seq c (io.GzipFileAdapter a) (io.with_gz w g1) reqs
      = Ret (io.GzipFileAdapter a, io.with_gz w g2, outs)
    /\ zlib.gz_reads_ok c h g0 g2.
Proof.
  induction reqs as [| n reqs IH]; intros g1 a Hg1 Hsucc.
  - exists g1, []. split; [reflexivity | exact Hg1].
  - destruct Hsucc as [Hok Hrest].
    pose proof (zlib.gz_reads_ok_step c h g0 g1 (to_unsigned_int n) Hg1 Hok) as Hg2.
    destruct (IH _ Hg2 Hrest) as (g3 & outs & Hseq & Hg3).
    assert (Hstep : exists out,
               io.read c (io.GzipFileAdapter a) (io.with_gz w g1) n
               = Ret (io.GzipFileAdapter a,
                      io.with_gz w (snd (zlib.gzread c g1 h (to_unsigned_int n))), out)).
    { unfold io.read, gzip_file_adapter.read; simpl.
      destruct (zlib.gzread c g1 h (to_unsigned_int n)) as [[k bytes] g2]. simpl.
      eexists. reflexivity. }
    destruct Hstep as [out Hstep].
    change (io.read_seq c (io.GzipFileAdapter a) (io.with_gz w g1) (n :: reqs))
      with ('(r, w', out) ← io.read c (io.GzipFileAdapter a) (io.with_gz w g1) n;
            '(r, w', outs) ← io.read_seq c r w' reqs;
            Ret (r, w', out :: outs)).
    rewrite Hstep. cbv beta iota delta [mbind outcome_bind]. subst a. rewrite Hseq.
    eexists _, _. split; [reflexivity | exact Hg3].
Qed.

(** The compressed file: after reads on which the codec did not fail,
    [gzseek] rewinds the handle. *)
Lemma gzip_file_reader_rereads g path h g0 (w : io.world G) reqs :
  zlib.rewinds_unless_failed c ->
  zlib.gzopen c g path "rb" = (h, g0) ->
  let a := {| gzip_file_adapter._gz_file := h; gzip_file_adapter._mode := file_mode.read |} in
  let w0 := io.with_gz w g0 in
  zlib.reads_succeed c h g0 (to_unsigned_int <$> reqs) ->
  exists r1 w1 outs,
    io.read_seq c (io.GzipFileAdapter a) w0 reqs = Ret (r1, w1, outs)
    /\ io.reset c r1 w1 = Ret (io.GzipFileAdapter a, w0).
Proof.
  intros Hlaw Hopen a w0 Hsucc.
  destruct (gzip_reads_while_ok h g0 w reqs g0 (zlib.gz_reads_ok_refl c h g0) Hsucc)
    as (g1 & outs & Hseq & Hg1).
  eexists _, _, _. split; [exact Hseq |].
  unfold io.reset, gzip_file_adapter.reset; simpl.
  pose proof (Hlaw g path h g0 g1 Hopen Hg1) as Hrew.
  destruct (zlib.gzseek c g1 h 0 zlib.SEEK_SET) as [k g2]. simpl in *. subst g2.
  reflexivity.
Qed.

(** The buffer view: reads move the cursor inside the range, [reset] puts
    it back at [data]. *)
Lemma buffer_view_reader_rereads m (w0 : io.world G) reqs :
  region_size m <= PTRDIFF_MAX ->
  Forall fits_ptrdiff reqs ->
  let bv0 := buffer_view.new (base m) (region_size m) in
  exists r1 w1 outs,
    io.read_seq c (io.BufferView m bv0) w0 reqs = Ret (r1, w1, outs)
    /\ io.reset c r1 w1 = Ret (io.BufferView m bv0, w0).
Proof.
  intros Hm Hreqs bv0.
  assert (Hsz : 0 <= region_size m) by (unfold region_size; lia).
  set (I := fun (r : io.reader) (w : io.world G) =>
              w = w0 /\ exists bv, r = io.BufferView m bv
                                   /\ buffer_view.view_over m bv /\ buffer_view.cursor_inv bv).
  destruct (read_seq_under_inv I) with (reqs := reqs) (r := io.BufferView m bv0) (w := w0)
    as (r1 & w1 & outs & Hseq & -> & bv & -> & [Hd Hl] & Hc); try assumption.
  - intros r w n [-> (bv & -> & Hv & Hc)] Hn.
    unfold io.read. rewrite (read_fits m bv n Hv Hm Hc Hn). simpl.
    eexists _, _, _. split; [reflexivity |]. split; [reflexivity |].
    eexists. split; [reflexivity |]. split; [exact Hv |].
    unfold buffer_view.cursor_inv in *; simpl. unfold fits_ptrdiff in Hn. lia.
  - split; [reflexivity |]. exists bv0. split; [reflexivity |].
    split; [split; reflexivity |]. unfold buffer_view.cursor_inv. simpl. lia.
  - exists (io.BufferView m bv), w0, outs. split; [exact Hseq |].
    unfold io.reset, buffer_view.reset. rewrite Hd, Hl. reflexivity.
Qed.


End claim_C9.

Section stored_codec.

Lemma stored_handle_address (k : nat) : Z.to_nat (Z.of_nat k + 1 - 1) = k.
Proof. lia. Qed.

(** The stored codec rewinds a file on which no read has failed. *)
Lemma stored_rewinds_unless_failed : zlib.rewinds_unless_failed stored.codec.
Proof.
  intros g path h g0 g1 Hopen Hreads. simpl in *.
  unfold stored.gzopen in Hopen. simpl in Hopen.
  destruct (stored.gz_files g !! path) as [bytes |] eqn:Efile.
  - unfold stored.install in Hopen. injection Hopen as <- <-.
    set (k := fresh (dom (stored.handles g))) in *.
    assert (Hinv : exists pos,
               g1 = {| stored.gz_files := stored.gz_files g;
                       stored.handles := <[k := {| stored.h_path := path; stored.h_pos := pos;
                                                   stored.h_mode := "rb";
                                                   stored.h_err := false |}]>
                                           (stored.handles g) |}).
    { induction Hreads as [| g' n _ IH Hok].
      - exists 0. reflexivity.
      - destruct IH as [pos ->]. simpl in *.
        unfold stored.gzread, stored.lookup, stored.set_handle in *. simpl in *.
        replace (Z.of_nat k + 1 <=? 0) with false in * by (symmetry; apply Z.leb_gt; lia).
        rewrite stored_handle_address, lookup_insert_eq in *. simpl in *.
        destruct (to_int n <? 0); simpl in *.
        + exfalso. vm_compute in Hok. apply Hok. reflexivity.
        + rewrite insert_insert_eq. eexists. reflexivity. }
    destruct Hinv as [pos ->].
    unfold stored.gzseek, stored.lookup, stored.set_handle. simpl.
    replace (Z.of_nat k + 1 <=? 0) with false by (symmetry; apply Z.leb_gt; lia).
    rewrite stored_handle_address, lookup_insert_eq. simpl.
    rewrite insert_insert_eq. reflexivity.
  - injection Hopen as <- <-.
    assert (Hsame : g1 = g).
    { induction Hreads as [| g' n _ IH Hok]; [reflexivity |]. rewrite IH. reflexivity. }
    subst g1. reflexivity.
Qed.

End stored_codec.

Section claim_C9_witness.



End claim_C9_witness.

(** ** C10: the plain stdio writer always reports the requested count *)

Section claim_C10.

Lemma iostream_write_accepted o bytes :
  iostream.written (iostream.write o bytes)
    = iostream.written o ++ take (Z.to_nat (iostream.accepted o bytes)) bytes
  /\ iostream.accepted o bytes <= Z.of_nat (length bytes).
Proof.
  unfold iostream.write, iostream.accepted.
  destruct (iostream.out_good o).
  - destruct (iostream.room o) as [r |].
    + destruct (Z.leb_spec (Z.of_nat (length bytes)) r); simpl.
      * rewrite Z.min_r by lia. rewrite Nat2Z.id, firstn_all. split; [reflexivity | lia].
      * rewrite Z.min_l by lia. split; [reflexivity | lia].
    + simpl. rewrite Nat2Z.id, firstn_all. split; [reflexivity | lia].
  - simpl. rewrite app_nil_r. split; [reflexivity | lia].
Qed.

Lemma region_load_length m p n bytes :
  region_load m p n = Some bytes -> Z.of_nat (length bytes) = n.
Proof.
  unfold region_load, region_size.
  destruct (_ && _) eqn:E; [| discriminate]. intros [= <-].
  rewrite !andb_true_iff, !Z.leb_le in E.
  rewrite length_take, length_drop. lia.
Qed.

(** C10.  A call of the plain stdio adapter's [write] with the [num_bytes]
    bytes at [buffer] (bytes the caller has in memory, so a number that a
    [ptrdiff_t] holds) returns exactly [num_bytes], whatever the state of
    the standard-output stream: the stream may be in a failure state or
    take fewer bytes, and only the bytes it accepted reach it, yet the
    returned count is the same. *)
Theorem stdio_write_reports_requested_count
    (o : iostream.ostream) (m : region) (buffer num_bytes : Z) (bytes : list byte) :
  fits_ptrdiff num_bytes ->
  region_load m buffer num_bytes = Some bytes ->
  exists o',
    stdio_adapter.write o m buffer num_bytes = Ret (o', num_bytes)
    /\ iostream.written o'
       = iostream.written o ++ take (Z.to_nat (iostream.accepted o bytes)) bytes
    /\ iostream.accepted o bytes <= num_bytes.
Proof.
  intros Hfit Hload.
  pose proof (region_load_length _ _ _ _ Hload) as Hlen.
  destruct (iostream_write_accepted o bytes) as [Hw Ha].
  unfold stdio_adapter.write, iostream.write_n.
  rewrite (to_ssize_t_small num_bytes) by (unfold fits_ptrdiff, PTRDIFF_MAX in *; lia).
  destruct (iostream.out_good o) eqn:Egood.
  - replace (num_bytes <? 0) with false
      by (symmetry; apply Z.ltb_ge; unfold fits_ptrdiff in Hfit; lia).
    rewrite Hload. simpl. eexists. split; [reflexivity |]. split; [exact Hw | lia].
  - simpl. exists o. split; [reflexivity |].
    unfold iostream.write in Hw. rewrite Egood in Hw. split; [exact Hw | lia].
Qed.

Lemma stdio_write_reports_requested_count_witness :
  let failed := {| iostream.written := []; iostream.room := Some 0; iostream.out_good := false |} in
  let m := {| base := 64; contents := ["a"; "b"; "c"]%byte |} in
  exists o', stdio_adapter.write failed m 64 3 = Ret (o', 3) /\ iostream.written o' = [].
Proof.
  intros failed m.
  destruct (stdio_write_reports_requested_count failed m 64 3 ["a"; "b"; "c"]%byte)
    as (o' & Hw & Hacc & _).
  - unfold fits_ptrdiff, PTRDIFF_MAX; lia.
  - reflexivity.
  - exists o'. split; [exact Hw | exact Hacc].
Defined.

End claim_C10.

(** * Further properties of the adapters *)

(** ** Readers that hand out a byte sequence in order *)

Section streams.
Context {G : Type} (c : zlib.codec G).

Lemma take_as_much (l : list byte) (n : nat) : take n l = take (Nat.min n (length l)) l.
Proof.
  destruct (Nat.le_gt_cases n (length l)).
  - rewrite Nat.min_l by assumption. reflexivity.
  - rewrite Nat.min_r by lia. rewrite !take_ge by lia. reflexivity.
Qed.

(** A reader that, at position [off] of the bytes [D], answers a request
    with the next [cap n] bytes that are left, hands out [D] in order. *)
Lemma stream_read_seq (D : list byte) (cap : Z -> nat) (ok : Z -> Prop)
    (St : nat -> io.reader -> io.world G -> Prop) :
  (forall off r w n, St off r w -> ok n ->
     exists r' w',
       io.read c r w n
         = Ret (r', w', (take (cap n) (drop off D),
                         Z.of_nat (length (take (cap n) (drop off D)))))
       /\ St (off + length (take (cap n) (drop off D)))%nat r' w') ->
  forall reqs off r w, St off r w -> Forall ok reqs ->
    exists r' w' outs,
      io.read_seq c r w reqs = Ret (r', w', outs)
      /\ all_bytes outs = take (Nat.min (length (drop off D)) (asked cap reqs)) (drop off D)
      /\ total_count outs = Z.of_nat (Nat.min (length (drop off D)) (asked cap reqs))
      /\ St (off + Nat.min (length (drop off D)) (asked cap reqs))%nat r' w'.
Proof.
  intros Hstep. induction reqs as [| n reqs IH]; intros off r w HSt Hok.
  - exists r, w, []. simpl. rewrite Nat.min_0_r, Nat.add_0_r.
    split; [reflexivity |]. split; [reflexivity |]. split; [reflexivity | exact HSt].
  - inversion Hok as [| ? ? Hn Hok']; subst.
    destruct (Hstep off r w n HSt Hn) as (r1 & w1 & Hread & HSt1).
    set (X := drop off D) in *.
    set (len1 := length (take (cap n) X)) in *.
    assert (Hlen1 : len1 = Nat.min (cap n) (length X)) by (subst len1; apply length_take).
    destruct (IH (off + len1)%nat r1 w1 HSt1 Hok') as (r2 & w2 & outs & Hseq & Hbytes & Htot & HSt2).
    assert (HX2 : drop (off + len1) D = drop len1 X) by (subst X; rewrite drop_drop; reflexivity).
    rewrite HX2 in Hbytes, Htot, HSt2.
    set (t2 := Nat.min (length (drop len1 X)) (asked cap reqs)) in *.
    assert (Hsum : (len1 + t2 = Nat.min (length X) (asked cap (n :: reqs)))%nat).
    { subst t2. rewrite length_drop. simpl. lia. }
    exists r2, w2, ((take (cap n) X, Z.of_nat len1) :: outs).
    split; [simpl; rewrite Hread; simpl; rewrite Hseq; reflexivity |].
    rewrite <- Hsum. split; [| split].
    + rewrite all_bytes_cons, Hbytes. simpl.
      rewrite (take_as_much X (cap n)), <- Hlen1. apply take_take_drop.
    + rewrite total_count_cons, Htot. simpl. lia.
    + rewrite Nat.add_assoc. exact HSt2.
Qed.

End streams.

(** ** The plain file, read *)

Section file_reading.
Context {G : Type} (c : zlib.codec G).

Lemma open_rdonly_installs s p f :
  p <> "" -> posix.files s !! p = Some f -> posix.may_read f = true ->
  posix.open s p posix.O_RDONLY = posix.install s (posix.Regular p 0 true false).
Proof.
  intros Hp Hf Hr. unfold posix.open.
  destruct (String.eqb_spec p ""); [contradiction |].
  rewrite Hf, Hr. reflexivity.
Qed.

Lemma install_lookup s d :
  posix.lookup_fd (snd (posix.install s d)) (posix.value (fst (posix.install s d))) = Some d.
Proof.
  unfold posix.install, posix.lookup_fd; simpl.
  replace (Z.of_nat _ <? 0) with false by (symmetry; apply Z.ltb_ge; lia).
  rewrite Nat2Z.id. apply lookup_insert_eq.
Qed.

Lemma install_value s d : 0 <= posix.value (fst (posix.install s d)).
Proof. unfold posix.install; simpl. lia. Qed.

Lemma install_files s d : posix.files (snd (posix.install s d)) = posix.files s.
Proof. reflexivity. Qed.

(** Reads of a file adapter whose descriptor is at offset [off] of a
    readable file: the next bytes of the file, as many as the request taken
    as an [unsigned int] asks for. *)
Lemma file_reads_in_order (a : file_adapter.t) (w0 : io.world G) p f reqs :
  file_adapter._mode a = file_mode.read ->
  posix.lookup_fd (io.w_os w0) (file_adapter._file_descriptor a)
    = Some (posix.Regular p 0 true false) ->
  posix.files (io.w_os w0) !! p = Some f ->
  exists r1 w1 outs,
    io.read_seq c (io.FileAdapter a) w0 reqs = Ret (r1, w1, outs)
    /\ all_bytes outs = take (asked as_unsigned_int reqs) (posix.data f)
    /\ total_count outs
       = Z.of_nat (Nat.min (length (posix.data f)) (asked as_unsigned_int reqs)).
Proof.
  intros Hmode H0 Hf. destruct a as [fd mode]; simpl in *. subst mode.
  set (a := {| file_adapter._file_descriptor := fd; file_adapter._mode := file_mode.read |}).
  pose proof (lookup_fd_nonneg _ _ _ H0) as Hnn.
  set (St := fun (off : nat) (r : io.reader) (w : io.world G) =>
               r = io.FileAdapter a
               /\ w = io.with_os w0 (posix.set_fd (io.w_os w0) fd
                                       (posix.Regular p (Z.of_nat off) true false))).
  destruct (stream_read_seq c (posix.data f) as_unsigned_int (fun _ => True) St)
    with (reqs := reqs) (off := 0%nat) (r := io.FileAdapter a) (w := w0)
    as (r1 & w1 & outs & Hseq & Hbytes & Htot & _).
  - intros off r w n [-> ->] _.
    unfold io.read, file_adapter.read, posix.read; simpl.
    rewrite lookup_set_fd by assumption. simpl.
    unfold posix.file_data; simpl. rewrite Hf; simpl. rewrite Nat2Z.id.
    eexists _, _. split; [reflexivity |]. split; [reflexivity |].
    rewrite set_fd_twice, Nat2Z.inj_add. reflexivity.
  - split; [reflexivity |]. simpl. rewrite set_fd_same by exact H0.
    symmetry. apply with_os_same.
  - apply Forall_forall. intros; exact I.
  - rewrite drop_0 in Hbytes, Htot. exists r1, w1, outs.
    split; [exact Hseq |]. split; [| exact Htot].
    rewrite Hbytes, Nat.min_comm. symmetry. apply take_as_much.
Qed.

(** X1.  A reader that [open_file_reader] opens on a readable file hands
    out the file's bytes in order: whatever the requested sizes, the reads
    return, between them, the first bytes of the file, as many as the
    requests ask for when each is taken as an [unsigned int], and no more
    than the file holds. *)
Theorem file_reader_reads_file_in_order
    (file_path : string) (w : io.world G) (f : posix.file) (reqs : list Z) :
  c_str file_path <> "" ->
  posix.files (io.w_os w) !! c_str file_path = Some f ->
  posix.may_read f = true ->
  exists r0 w0 r1 w1 outs,
    io.open_file_reader file_path w = Ret (r0, w0)
    /\ io.read_seq c r0 w0 reqs = Ret (r1, w1, outs)
    /\ all_bytes outs = take (asked as_unsigned_int reqs) (posix.data f)
    /\ total_count outs
       = Z.of_nat (Nat.min (length (posix.data f)) (asked as_unsigned_int reqs)).
Proof.
  intros Hp Hf Hr.
  set (d := posix.Regular (c_str file_path) 0 true false).
  pose proof (install_lookup (io.w_os w) d) as Hl.
  pose proof (install_value (io.w_os w) d) as Hv.
  assert (Hnew : file_adapter.new (c_str file_path) file_mode.read (io.w_os w)
                 = Ret ({| file_adapter._file_descriptor :=
                             posix.value (fst (posix.install (io.w_os w) d));
                           file_adapter._mode := file_mode.read |},
                        snd (posix.install (io.w_os w) d))).
  { unfold file_adapter.new. rewrite (open_rdonly_installs _ _ _ Hp Hf Hr). fold d.
    destruct (posix.install (io.w_os w) d) as [r s0]; simpl in *.
    replace (posix.value r =? -1) with false by (symmetry; apply Z.eqb_neq; lia).
    reflexivity. }
  destruct (file_reads_in_order
              {| file_adapter._file_descriptor := posix.value (fst (posix.install (io.w_os w) d));
                 file_adapter._mode := file_mode.read |}
              (io.with_os w (snd (posix.install (io.w_os w) d)))
              (c_str file_path) f reqs) as (r1 & w1 & outs & Hseq & Hbytes & Htot);
    [reflexivity | exact Hl | exact Hf |].
  eexists _, _, r1, w1, outs. split; [| split; [exact Hseq | split; assumption]].
  unfold io.open_file_reader. rewrite Hnew. reflexivity.
Qed.

End file_reading.

Lemma file_reader_reads_file_in_order_witness :
  let w := {| io.w_os := {| posix.files := {[ "train.dat" := {| posix.data := ["a"; "b"; "c"; "d"]%byte;
                                                              posix.may_read := true;
                                                              posix.may_write := false |} ]};
                            posix.fds := ∅ |};
              io.w_gz := {| stored.gz_files := ∅; stored.handles := ∅ |};
              io.w_cin := {| iostream.pending := []; iostream.in_good := true |};
              io.w_cout := {| iostream.written := []; iostream.room := None;
                              iostream.out_good := true |} |} in
  exists r0 w0 r1 w1 outs,
    io.open_file_reader "train.dat" w = Ret (r0, w0)
    /\ io.read_seq stored.codec r0 w0 [1; 2 ^ 32; 2] = Ret (r1, w1, outs)
    /\ all_bytes outs = ["a"; "b"; "c"]%byte.
Proof.
  intros w.
  destruct (file_reader_reads_file_in_order stored.codec "train.dat" w
              {| posix.data := ["a"; "b"; "c"; "d"]%byte; posix.may_read := true;
                 posix.may_write := false |} [1; 2 ^ 32; 2])
    as (r0 & w0 & r1 & w1 & outs & Hopen & Hseq & Hbytes & _).
  - discriminate.
  - reflexivity.
  - reflexivity.
  - exists r0, w0, r1, w1, outs. split; [exact Hopen |]. split; [exact Hseq | exact Hbytes].
Defined.

(** ** The plain file, opened, written and closed *)

Section file_lifecycle.

Lemma first_free_unused (m : gmap nat posix.description) :
  forall (fuel k : nat) (m' : gmap nat posix.description),
  (forall j, (k <= j)%nat -> m !! j = m' !! j) -> (size m' <= fuel)%nat ->
  m !! posix.first_free m fuel k = None.
Proof.
  induction fuel as [| fuel IH]; intros k m' Hsame Hsize; simpl.
  - rewrite (Hsame k) by lia.
    assert (m' = ∅) by (apply map_size_empty_inv; lia). subst m'. apply lookup_empty.
  - destruct (m !! k) as [d |] eqn:Ek; [| exact Ek].
    apply (IH (S k) (delete k m')).
    + intros j Hj. rewrite lookup_delete_ne by lia. apply Hsame. lia.
    + rewrite map_size_delete. rewrite <- (Hsame k) by lia. rewrite Ek. simpl. lia.
Qed.

Lemma fresh_fd_unused (m : gmap nat posix.description) : m !! posix.lowest_free m = None.
Proof. apply (first_free_unused m (size m) 0%nat m); [reflexivity | lia]. Qed.

Lemma install_close s d :
  posix.fds (snd (posix.close (snd (posix.install s d))
                              (posix.value (fst (posix.install s d)))))
    = posix.fds s.
Proof.
  unfold posix.close. rewrite install_lookup.
  unfold posix.install; simpl. rewrite Nat2Z.id.
  apply delete_insert_id, fresh_fd_unused.
Qed.

(** What [open] does: it fails and changes nothing, or it installs a new
    descriptor, touching no other. *)
Lemma open_shape s p fl :
  (exists e, posix.open s p fl = (posix.failed e, s))
  \/ (exists s' d, posix.open s p fl = posix.install s' d /\ posix.fds s' = posix.fds s).
Proof.
  unfold posix.open. destruct (String.eqb p ""); [left; eauto |].
  destruct fl; destruct (posix.files s !! p) as [f |].
  - destruct (posix.may_read f); [right; eexists _, _; split; reflexivity | left; eauto].
  - left; eauto.
  - destruct (posix.may_write f); [right; eexists _, _; split; reflexivity | left; eauto].
  - right; eexists _, _; split; reflexivity.
Qed.

Lemma new_calls_open filename mode s :
  file_adapter.new filename mode s
  = (let '(r, s) := posix.open s filename
                      (match mode with
                       | file_mode.read => posix.O_RDONLY
                       | file_mode.write => posix.O_CREAT_WRONLY_TRUNC
                       end) in
     if (posix.value r =? -1) && negb (String.eqb filename "")
     then THROWERRNO ("can't open: " +:+ filename) (posix.errno r)
     else Ret ({| file_adapter._file_descriptor := posix.value r;
                  file_adapter._mode := mode |}, s)).
Proof. unfold file_adapter.new. destruct mode; reflexivity. Qed.

(** X2.  Constructing a file adapter and destroying it again leaves the
    table of open descriptors as it was, in either mode and also for the
    empty path, where the destructor's [close(-1)] fails and changes
    nothing: no descriptor is leaked and no other descriptor is closed. *)
Theorem file_adapter_returns_its_descriptor
    (filename : string) (mode : file_mode.t) (s s1 : posix.state) (a : file_adapter.t) :
  file_adapter.new filename mode s = Ret (a, s1) ->
  posix.fds (file_adapter.destroy a s1) = posix.fds s.
Proof.
  rewrite new_calls_open.
  destruct (open_shape s filename
              (match mode with
               | file_mode.read => posix.O_RDONLY
               | file_mode.write => posix.O_CREAT_WRONLY_TRUNC
               end)) as [[e ->] | (s' & d & -> & Hfds)].
  - simpl. destruct (negb _); [discriminate |]. intros [= <- <-]. reflexivity.
  - pose proof (install_value s' d) as Hv. pose proof (install_close s' d) as Hc.
    destruct (posix.install s' d) as [r s0]; simpl in *.
    replace (posix.value r =? -1) with false by (symmetry; apply Z.eqb_neq; lia).
    simpl. intros [= <- <-]. unfold file_adapter.destroy; simpl. congruence.
Qed.

Lemma file_adapter_returns_its_descriptor_witness :
  let s := {| posix.files := ∅;
              posix.fds := {[ 0%nat := posix.Stream [] []; 2%nat := posix.Stream [] [] ]} |} in
  exists a s1,
    file_adapter.new "model.vw" file_mode.write s = Ret (a, s1)
    /\ posix.fds (file_adapter.destroy a s1) = posix.fds s.
Proof.
  intros s.
  destruct (file_adapter.new "model.vw" file_mode.write s) as [[a s1] | | |] eqn:E;
    try (vm_compute in E; discriminate).
  exists a, s1. split; [reflexivity |].
  exact (file_adapter_returns_its_descriptor "model.vw" file_mode.write s s1 a E).
Defined.



End file_lifecycle.

(** ** The plain file, written and read back *)

Section file_round_trip.

Lemma to_unsigned_int_small z : 0 <= z < 2 ^ 32 -> to_unsigned_int z = z.
Proof. intros. unfold to_unsigned_int. apply Z.mod_small. assumption. Qed.

Lemma write_one_chunk s p mr (k : nat) d chunk :
  Z.of_nat (length chunk) < 2 ^ 32 ->
  file_adapter.write {| file_adapter._file_descriptor := Z.of_nat k;
                        file_adapter._mode := file_mode.write |}
    (file_io.writing s p mr k d) {| base := 0; contents := chunk |} 0 (Z.of_nat (length chunk))
  = Ret ({| file_adapter._file_descriptor := Z.of_nat k;
            file_adapter._mode := file_mode.write |},
         file_io.writing s p mr k (d ++ chunk), Z.of_nat (length chunk)).
Proof.
  intros Hlen. unfold file_adapter.write, file_io.writing; simpl.
  rewrite to_unsigned_int_small by lia.
  unfold posix.write, posix.lookup_fd; simpl.
  replace (Z.of_nat k <? 0) with false by (symmetry; apply Z.ltb_ge; lia).
  rewrite Nat2Z.id, lookup_insert_eq, region_load_whole.
  unfold posix.file_data; simpl. rewrite lookup_insert_eq; simpl.
  rewrite alter_insert_eq, insert_insert_eq; simpl.
  rewrite Nat2Z.id, firstn_all, Nat.sub_diag; simpl.
  rewrite drop_ge by lia. rewrite app_nil_r, length_app, Nat2Z.inj_add.
  reflexivity.
Qed.

Lemma write_chunks s p mr (k : nat) chunks : forall d,
  Forall (fun chunk : list byte => Z.of_nat (length chunk) < 2 ^ 32) chunks ->
  file_io.write_seq {| file_adapter._file_descriptor := Z.of_nat k;
                       file_adapter._mode := file_mode.write |}
    (file_io.writing s p mr k d) chunks
  = Ret ({| file_adapter._file_descriptor := Z.of_nat k;
            file_adapter._mode := file_mode.write |},
         file_io.writing s p mr k (d ++ concat chunks),
         (fun chunk : list byte => Z.of_nat (length chunk)) <$> chunks).
Proof.
  induction chunks as [| chunk chunks IH]; intros d Hall; simpl.
  - rewrite app_nil_r. reflexivity.
  - inversion Hall as [| ? ? Hlen Hall']; subst.
    rewrite write_one_chunk by assumption. simpl.
    rewrite IH by assumption. simpl. rewrite app_assoc. reflexivity.
Qed.

Lemma read_at_start a s p f n :
  file_adapter._mode a = file_mode.read ->
  posix.lookup_fd s (file_adapter._file_descriptor a) = Some (posix.Regular p 0 true false) ->
  posix.files s !! p = Some f ->
  exists s',
    file_adapter.read a s n
    = Ret (a, s', (take (as_unsigned_int n) (posix.data f),
                   Z.of_nat (length (take (as_unsigned_int n) (posix.data f))))).
Proof.
  destruct a as [fd mode]; simpl. intros -> Hl Hf.
  unfold file_adapter.read, posix.read; simpl. rewrite Hl.
  unfold posix.file_data. rewrite Hf. simpl. rewrite drop_0.
  eexists. reflexivity.
Qed.



End file_round_trip.

(** ** Requests as [unsigned int], and descriptors that cannot seek *)

Section descriptors.

Lemma to_unsigned_int_multiple k : to_unsigned_int (k * 2 ^ 32) = 0.
Proof. unfold to_unsigned_int. apply Z_mod_mult. Qed.

Lemma to_unsigned_int_plus n k : to_unsigned_int (n + k * 2 ^ 32) = to_unsigned_int n.
Proof. unfold to_unsigned_int. apply Z_mod_plus_full. Qed.

Lemma posix_read_nothing s fd :
  posix.read s fd 0
  = (match posix.lookup_fd s fd with
     | Some (posix.Regular _ _ true _) | Some (posix.Stream _ _) => posix.ok 0
     | _ => posix.failed posix.EBADF
     end, [], s).
Proof.
  unfold posix.read. destruct (posix.lookup_fd s fd) as [[p off [] w | inc out] |] eqn:E;
    try reflexivity; simpl.
  - rewrite Z.add_0_r, set_fd_same by exact E. reflexivity.
  - rewrite drop_0, set_fd_same by exact E. reflexivity.
Qed.

(** X5.  The file adapter and the socket adapter pass the requested size
    to the system as an [unsigned int]: a request of a multiple of 2^32
    bytes reads nothing, leaves the system as it is and returns 0 on a
    readable descriptor (as at the end of the stream, whatever is still
    unread) and -1 otherwise; any request behaves as the request reduced
    modulo 2^32. *)
Theorem request_of_4GiB_reads_nothing
    (fd : Z) (closer : nat) (s : posix.state) (k n : Z) :
  let fa := {| file_adapter._file_descriptor := fd; file_adapter._mode := file_mode.read |} in
  let sa := {| socket._socket_fd := fd; socket._closer := closer |} in
  let v := match posix.lookup_fd s fd with
           | Some (posix.Regular _ _ true _) | Some (posix.Stream _ _) => 0
           | _ => -1
           end in
  file_adapter.read fa s (k * 2 ^ 32) = Ret (fa, s, ([], v))
  /\ socket.read sa s (k * 2 ^ 32) = Ret (sa, s, ([], v))
  /\ file_adapter.read fa s (n + k * 2 ^ 32) = file_adapter.read fa s n
  /\ socket.read sa s (n + k * 2 ^ 32) = socket.read sa s n.
Proof.
  intros fa sa v. unfold file_adapter.read, socket.read; simpl.
  rewrite to_unsigned_int_multiple, to_unsigned_int_plus, posix_read_nothing.
  subst v. destruct (posix.lookup_fd s fd) as [[p off [] w | inc out] |]; auto.
Qed.

(** X6.  A file adapter made from a descriptor that cannot seek (a pipe
    or a socket) still says it is resettable, and its [reset] returns
    normally although [lseek] failed: nothing is rewound, and the read
    after the reset goes on where the read before it stopped. *)
Theorem file_adapter_reset_on_pipe_rewinds_nothing
    (fd : Z) (s : posix.state) (incoming outgoing : list byte) (n1 n2 : Z) :
  posix.lookup_fd s fd = Some (posix.Stream incoming outgoing) ->
  let a := file_adapter.new_fd fd file_mode.read in
  let first := take (as_unsigned_int n1) incoming in
  let next := take (as_unsigned_int n2) (drop (as_unsigned_int n1) incoming) in
  file_adapter.is_resettable = true
  /\ exists s1 s2,
       file_adapter.read a s n1 = Ret (a, s1, (first, Z.of_nat (length first)))
       /\ file_adapter.reset a s1 = Ret (a, s1)
       /\ file_adapter.read a s1 n2 = Ret (a, s2, (next, Z.of_nat (length next))).
Proof.
  intros Hfd a first next. split; [reflexivity |].
  pose proof (lookup_fd_nonneg _ _ _ Hfd) as Hnn.
  set (s1 := posix.set_fd s fd (posix.Stream (drop (as_unsigned_int n1) incoming) outgoing)).
  assert (Hfd1 : posix.lookup_fd s1 fd
                 = Some (posix.Stream (drop (as_unsigned_int n1) incoming) outgoing))
    by (apply lookup_set_fd; exact Hnn).
  exists s1. eexists. split; [| split].
  - unfold file_adapter.read, posix.read; simpl. rewrite Hfd. reflexivity.
  - unfold file_adapter.reset, posix.lseek; simpl. rewrite Hfd1. reflexivity.
  - unfold file_adapter.read, posix.read; simpl. rewrite Hfd1. reflexivity.
Qed.

Lemma file_adapter_reset_on_pipe_rewinds_nothing_witness :
  let s := {| posix.files := ∅;
              posix.fds := {[ 0%nat := posix.Stream ["a"; "b"; "c"]%byte [] ]} |} in
  let a := file_adapter.new_fd 0 file_mode.read in
  exists s1 s2,
    file_adapter.read a s 2 = Ret (a, s1, (["a"; "b"]%byte, 2))
    /\ file_adapter.reset a s1 = Ret (a, s1)
    /\ file_adapter.read a s1 2 = Ret (a, s2, (["c"]%byte, 1)).
Proof.
  intros s a.
  destruct (file_adapter_reset_on_pipe_rewinds_nothing 0 s ["a"; "b"; "c"]%byte [] 2 2)
    as (_ & s1 & s2 & H1 & H2 & H3); [reflexivity |].
  exists s1, s2. split; [exact H1 |]. split; [exact H2 | exact H3].
Defined.

End descriptors.

(** ** Sockets, standard input and views of a part of memory *)

Section more_streams.
Context {G : Type} (c : zlib.codec G).

Lemma drop_taken (X : list byte) (n : nat) : drop n X = drop (length (take n X)) X.
Proof.
  rewrite length_take. destruct (Nat.le_gt_cases n (length X)).
  - rewrite Nat.min_l by assumption. reflexivity.
  - rewrite Nat.min_r by lia. rewrite !drop_ge by lia. reflexivity.
Qed.

(** X7.  A socket reader hands out what arrives on the socket in order:
    the reads return, between them, the first bytes of what is pending, as
    many as the requests ask for (each taken as an [unsigned int]) and no
    more than there are, each read returning the count it got; the rest
    stays pending and what was sent is untouched. *)
Theorem socket_reader_reads_in_order
    (a : socket.socket_adapter) (w : io.world G) (incoming outgoing : list byte)
    (reqs : list Z) :
  posix.lookup_fd (io.w_os w) (socket._socket_fd a) = Some (posix.Stream incoming outgoing) ->
  exists r1 w1 outs,
    io.read_seq c (io.SocketAdapter a) w reqs = Ret (r1, w1, outs)
    /\ all_bytes outs = take (asked as_unsigned_int reqs) incoming
    /\ total_count outs = Z.of_nat (Nat.min (length incoming) (asked as_unsigned_int reqs))
    /\ posix.lookup_fd (io.w_os w1) (socket._socket_fd a)
       = Some (posix.Stream (drop (asked as_unsigned_int reqs) incoming) outgoing).
Proof.
  intros Hfd. pose proof (lookup_fd_nonneg _ _ _ Hfd) as Hnn.
  set (St := fun (off : nat) (r : io.reader) (w' : io.world G) =>
               r = io.SocketAdapter a
               /\ posix.lookup_fd (io.w_os w') (socket._socket_fd a)
                  = Some (posix.Stream (drop off incoming) outgoing)).
  destruct (stream_read_seq c incoming as_unsigned_int (fun _ => True) St)
    with (reqs := reqs) (off := 0%nat) (r := io.SocketAdapter a) (w := w)
    as (r1 & w1 & outs & Hseq & Hbytes & Htot & _ & Hfd1).
  - intros off r w' n [-> Hl] _.
    unfold io.read, socket.read, posix.read; simpl. rewrite Hl. simpl.
    eexists _, _. split; [reflexivity |]. split; [reflexivity |]. simpl.
    rewrite lookup_set_fd by assumption.
    rewrite (drop_taken (drop off incoming)), drop_drop. reflexivity.
  - split; [reflexivity | rewrite drop_0; exact Hfd].
  - apply Forall_forall. intros; exact I.
  - rewrite drop_0 in Hbytes, Htot, Hfd1. simpl in Hfd1.
    exists r1, w1, outs. split; [exact Hseq |].
    split; [rewrite Hbytes, Nat.min_comm; symmetry; apply take_as_much |].
    split; [exact Htot |]. rewrite Hfd1. f_equal. f_equal.
    rewrite Nat.min_comm, <- length_take. symmetry. apply drop_taken.
Qed.

(** X8.  The reader of [open_stdin] hands out standard input in order and
    reports what it got, not what was asked: on a stream that is good the
    reads return, between them, the first bytes that are pending, as many as
    the requests ask for and no more than there are, and each read returns
    the count of the bytes it delivered (zero once the input is used up). *)
Theorem stdin_reader_reads_in_order (w : io.world G) (reqs : list Z) :
  iostream.in_good (io.w_cin w) = true ->
  Forall fits_ptrdiff reqs ->
  exists r1 w1 outs,
    io.open_stdin w = Ret (io.StdioAdapter, w)
    /\ io.read_seq c io.StdioAdapter w reqs = Ret (r1, w1, outs)
    /\ all_bytes outs = take (asked as_count reqs) (iostream.pending (io.w_cin w))
    /\ total_count outs
       = Z.of_nat (Nat.min (length (iostream.pending (io.w_cin w))) (asked as_count reqs))
    /\ Forall (fun out : list byte * Z => snd out = Z.of_nat (length (fst out))) outs.
Proof.
  intros Hgood Hreqs.
  set (D := iostream.pending (io.w_cin w)).
  set (St := fun (off : nat) (r : io.reader) (w' : io.world G) =>
               r = io.StdioAdapter
               /\ iostream.pending (io.w_cin w') = drop off D
               /\ (iostream.in_good (io.w_cin w') = true \/ drop off D = [])).
  assert (Hstep : forall off r w' n, St off r w' -> fits_ptrdiff n ->
            exists r' w'',
              io.read c r w' n
              = Ret (r', w'', (take (as_count n) (drop off D),
                               Z.of_nat (length (take (as_count n) (drop off D)))))
              /\ St (off + length (take (as_count n) (drop off D)))%nat r' w'').
  { intros off r w' n (-> & Hp & Hg) Hn.
    unfold io.read, stdio_adapter.read, iostream.read.
    rewrite to_ssize_t_small by (unfold fits_ptrdiff, PTRDIFF_MAX in *; lia).
    rewrite Hp. fold (as_count n).
    destruct (iostream.in_good (io.w_cin w')) eqn:Eg; simpl.
    - eexists _, _. split; [reflexivity |]. split; [reflexivity |]. simpl.
      split; [rewrite (drop_taken (drop off D)), drop_drop; reflexivity |].
      destruct (Z.eqb_spec n (Z.of_nat (length (take (as_count n) (drop off D)))));
        [left; reflexivity | right].
      rewrite <- drop_drop, <- drop_taken. apply drop_ge.
      rewrite length_take in *. unfold as_count, fits_ptrdiff in *. lia.
    - destruct Hg as [Hg | Hg]; [discriminate |]. rewrite Hg. rewrite take_nil. simpl.
      eexists _, _. split; [reflexivity |]. split; [reflexivity |].
      rewrite Nat.add_0_r, Hg. simpl. split; [rewrite Hp; exact Hg | right; reflexivity]. }
  destruct (stream_read_seq c D as_count fits_ptrdiff St Hstep reqs 0%nat io.StdioAdapter w)
    as (r1 & w1 & outs & Hseq & Hbytes & Htot & _).
  { split; [reflexivity |]. rewrite drop_0. split; [reflexivity | left; exact Hgood]. }
  { exact Hreqs. }
  rewrite drop_0 in Hbytes, Htot. exists r1, w1, outs.
  split; [reflexivity |]. split; [exact Hseq |].
  split; [rewrite Hbytes, Nat.min_comm; symmetry; apply take_as_much |].
  split; [exact Htot |].
  clear Hbytes Htot.
  assert (Hall : forall reqs' off r w' r' w'' outs',
            St off r w' -> Forall fits_ptrdiff reqs' ->
            io.read_seq c r w' reqs' = Ret (r', w'', outs') ->
            Forall (fun out : list byte * Z => snd out = Z.of_nat (length (fst out))) outs').
  { induction reqs' as [| n reqs' IH]; intros off r w' r' w'' outs' HSt Hok Hrun.
    - injection Hrun as _ _ <-. constructor.
    - inversion Hok as [| ? ? Hn Hok']; subst.
      destruct (Hstep off r w' n HSt Hn) as (ra & wa & Hread & HSta).
      simpl in Hrun. rewrite Hread in Hrun. simpl in Hrun.
      destruct (io.read_seq c ra wa reqs') as [[[rb wb] outsb] | | |] eqn:Erest;
        try discriminate.
      simpl in Hrun. injection Hrun as _ _ <-.
      constructor; [reflexivity |]. eapply IH; eassumption. }
  eapply Hall; [| exact Hreqs | exact Hseq].
  split; [reflexivity |]. rewrite drop_0. split; [reflexivity | left; exact Hgood].
Qed.

End more_streams.

Lemma socket_reader_reads_in_order_witness :
  let w := {| io.w_os := {| posix.files := ∅;
                            posix.fds := {[ 5%nat := posix.Stream ["1"; "2"; "3"]%byte ["x"]%byte ]} |};
              io.w_gz := {| stored.gz_files := ∅; stored.handles := ∅ |};
              io.w_cin := {| iostream.pending := []; iostream.in_good := true |};
              io.w_cout := {| iostream.written := []; iostream.room := None;
                              iostream.out_good := true |} |} in
  exists r1 w1 outs,
    io.read_seq stored.codec (io.SocketAdapter {| socket._socket_fd := 5; socket._closer := 0 |})
      w [2; 2] = Ret (r1, w1, outs)
    /\ all_bytes outs = ["1"; "2"; "3"]%byte /\ total_count outs = 3.
Proof.
  intros w.
  destruct (socket_reader_reads_in_order stored.codec
              {| socket._socket_fd := 5; socket._closer := 0 |} w
              ["1"; "2"; "3"]%byte ["x"]%byte [2; 2])
    as (r1 & w1 & outs & Hseq & Hbytes & Htot & _); [reflexivity |].
  exists r1, w1, outs. split; [exact Hseq |]. split; [exact Hbytes | exact Htot].
Defined.

Lemma stdin_reader_reads_in_order_witness :
  let w := {| io.w_os := {| posix.files := ∅; posix.fds := ∅ |};
              io.w_gz := {| stored.gz_files := ∅; stored.handles := ∅ |};
              io.w_cin := {| iostream.pending := ["1"; " "; "|"]%byte; iostream.in_good := true |};
              io.w_cout := {| iostream.written := []; iostream.room := None;
                              iostream.out_good := true |} |} in
  exists r1 w1 outs,
    io.read_seq stored.codec io.StdioAdapter w [2; 4; 4] = Ret (r1, w1, outs)
    /\ all_bytes outs = ["1"; " "; "|"]%byte /\ total_count outs = 3.
Proof.
  intros w.
  destruct (stdin_reader_reads_in_order stored.codec w [2; 4; 4])
    as (r1 & w1 & outs & _ & Hseq & Hbytes & Htot & _).
  - reflexivity.
  - repeat constructor; unfold PTRDIFF_MAX; lia.
  - exists r1, w1, outs. split; [exact Hseq |]. split; [exact Hbytes | exact Htot].
Defined.

Section view_of_a_part.
Context {G : Type} (c : zlib.codec G).

Lemma drop_of_take (X : list byte) (off L : nat) :
  (off <= L)%nat -> drop off (take L X) = take (L - off) (drop off X).
Proof.
  intros H. rewrite take_drop_commute. replace (off + (L - off))%nat with L by lia.
  reflexivity.
Qed.

(** X9.  A buffer view made over a part [data, data+len) of the memory the
    caller owns hands out exactly that part, in order: whatever the
    requested sizes (each a size a [ptrdiff_t] holds), the reads return,
    between them, the first bytes of the part, as many as were asked for
    and no more than [len], although more of the caller's memory lies
    before and after it; the world around is not touched. *)
Theorem buffer_view_reads_its_part
    (m : region) (data len : Z) (w : io.world G) (reqs : list Z) :
  base m <= data ->
  0 <= len <= PTRDIFF_MAX ->
  data + len <= base m + region_size m ->
  Forall fits_ptrdiff reqs ->
  let part := take (Z.to_nat len) (drop (Z.to_nat (data - base m)) (contents m)) in
  exists r0 r1 outs,
    io.create_buffer_view m data len w = Ret (r0, w)
    /\ io.read_seq c r0 w reqs = Ret (r1, w, outs)
    /\ Z.of_nat (length part) = len
    /\ all_bytes outs = take (asked as_count reqs) part
    /\ total_count outs = Z.of_nat (Nat.min (length part) (asked as_count reqs)).
Proof.
  intros Hbase Hlen Hend Hreqs part.
  set (o := Z.to_nat (data - base m)). set (L := Z.to_nat len).
  assert (Hsize : (o + L <= length (contents m))%nat)
    by (unfold region_size in Hend; lia).
  assert (HpartL : length part = L)
    by (subst part; fold o L; rewrite length_take, length_drop; lia).
  set (St := fun (off : nat) (r : io.reader) (w' : io.world G) =>
               w' = w
               /\ r = io.BufferView m {| buffer_view._data := data;
                                         buffer_view._read_head := data + Z.of_nat off;
                                         buffer_view._len := len |}
               /\ (off <= L)%nat).
  destruct (stream_read_seq c part as_count fits_ptrdiff St)
    with (reqs := reqs) (off := 0%nat)
         (r := io.BufferView m (buffer_view.new data len)) (w := w)
    as (r1 & w1 & outs & Hseq & Hbytes & Htot & -> & _).
  - intros off r w' n (-> & -> & Hoff) Hn.
    set (bv := {| buffer_view._data := data;
                  buffer_view._read_head := data + Z.of_nat off;
                  buffer_view._len := len |}).
    assert (Hc : buffer_view.cursor_inv bv) by (unfold buffer_view.cursor_inv; simpl; lia).
    pose proof (clipped_fits bv n Hc (proj2 Hlen) Hn) as Hclip. simpl in Hclip.
    set (k := Z.min (data + len - (data + Z.of_nat off)) n) in *.
    assert (Hk : Z.to_nat k = Nat.min (as_count n) (L - off))
      by (unfold as_count, fits_ptrdiff in *; lia).
    assert (Hout : take (as_count n) (drop off part)
                   = take (Z.to_nat k) (drop (o + off) (contents m))).
    { subst part. fold o L. rewrite drop_of_take by assumption.
      rewrite take_take, drop_drop, Hk. reflexivity. }
    assert (Houtlen : length (take (as_count n) (drop off part)) = Z.to_nat k).
    { rewrite Hout, length_take, length_drop. lia. }
    unfold io.read, buffer_view.read. rewrite Hclip. fold bv.
    destruct (Z.eqb_spec k 0) as [Hk0 | Hk0].
    + simpl. rewrite Hout, Hk0. simpl.
      eexists _, _. split; [reflexivity |]. split; [reflexivity |].
      rewrite Nat.add_0_r. split; [reflexivity | exact Hoff].
    + assert (Hload : region_load m (data + Z.of_nat off) k
                      = Some (take (Z.to_nat k) (drop (o + off) (contents m)))).
      { unfold region_load.
        replace ((base m <=? data + Z.of_nat off) && (0 <=? k)
                 && (data + Z.of_nat off + k <=? base m + region_size m)) with true
          by (symmetry; rewrite !andb_true_iff, !Z.leb_le;
              unfold fits_ptrdiff in Hn; lia).
        do 3 f_equal. lia. }
      simpl. rewrite Hload. simpl.
      rewrite to_ssize_t_small by (unfold fits_ptrdiff, PTRDIFF_MAX in *; lia).
      assert (Hkk : Z.of_nat (Z.to_nat k) = k) by (unfold fits_ptrdiff in Hn; lia).
      rewrite Houtlen, Hout, Hkk.
      eexists _, _. split; [reflexivity |].
      split; [reflexivity |]. split; [| lia].
      do 2 f_equal. lia.
  - split; [reflexivity |]. split; [| lia].
    unfold buffer_view.new. do 2 f_equal. simpl. lia.
  - exact Hreqs.
  - rewrite drop_0 in Hbytes, Htot.
    exists (io.BufferView m (buffer_view.new data len)), r1, outs.
    split; [reflexivity |]. split; [exact Hseq |]. split; [rewrite HpartL; lia |].
    split; [rewrite Hbytes, Nat.min_comm; symmetry; apply take_as_much | exact Htot].
Qed.

End view_of_a_part.

Lemma buffer_view_reads_its_part_witness :
  let w := {| io.w_os := {| posix.files := ∅; posix.fds := ∅ |};
              io.w_gz := {| stored.gz_files := ∅; stored.handles := ∅ |};
              io.w_cin := {| iostream.pending := []; iostream.in_good := true |};
              io.w_cout := {| iostream.written := []; iostream.room := None;
                              iostream.out_good := true |} |} in
  let m := {| base := 1000; contents := ["<"; "a"; "b"; "c"; ">"]%byte |} in
  exists r0 r1 outs,
    io.create_buffer_view m 1001 3 w = Ret (r0, w)
    /\ io.read_seq stored.codec r0 w [2; 0; 7] = Ret (r1, w, outs)
    /\ all_bytes outs = ["a"; "b"; "c"]%byte.
Proof.
  intros w m.
  destruct (buffer_view_reads_its_part stored.codec m 1001 3 w [2; 0; 7])
    as (r0 & r1 & outs & Hmake & Hseq & _ & Hbytes & _).
  - simpl; lia.
  - unfold PTRDIFF_MAX; lia.
  - unfold region_size; simpl; lia.
  - repeat constructor; unfold PTRDIFF_MAX; lia.
  - exists r0, r1, outs. split; [exact Hmake |]. split; [exact Hseq | exact Hbytes].
Defined.

(** ** What the objects derived from a socket point to *)

Section socket_objects.
Import socket.

(** X10.  Whatever the caller has done with a socket and its streams, no
    live object holds a dangling closer: the socket, while it lives, and
    every live reader or writer carry the socket's descriptor and point to
    one and the same closer, which exists, will close that descriptor, has
    not closed it yet, and whose use count is exactly the number of live
    objects. *)
Theorem socket_objects_share_live_closer (fd : Z) (es : list event) (c : caller) :
  run (wrap_socket_descriptor fd) es = Some c ->
  let live := {| use_count := live_refs c; pointee := {| closer_fd := fd |} |} in
  (forall s, the_socket c = Some s ->
     sock_fd s = fd /\ blocks (mem c) !! sock_closer s = Some live /\ closes (mem c) = [])
  /\ (forall i ro a, streams c !! i = Some (ro, a) ->
        _socket_fd a = fd /\ blocks (mem c) !! _closer a = Some live /\ closes (mem c) = [])
  /\ (forall i ro a j ro' a', streams c !! i = Some (ro, a) -> streams c !! j = Some (ro', a') ->
        _closer a = _closer a').
Proof.
  intros Hrun live.
  destruct (run_inv fd es _ _ (closer_inv_init fd) Hrun) as (p & Hs & Hst & _ & Hmem).
  assert (Hheap : live_refs c <> 0%nat ->
            blocks (mem c) !! p = Some live /\ closes (mem c) = []).
  { intros Hlive. rewrite Hmem. subst live. destruct (live_refs c); [contradiction |].
    simpl. rewrite lookup_singleton_eq. split; reflexivity. }
  split; [| split].
  - intros s Es. rewrite (Hs s Es). simpl. split; [reflexivity |].
    apply Hheap. unfold live_refs. rewrite Es. simpl. lia.
  - intros i ro a Ei. rewrite (Hst i ro a Ei). simpl. split; [reflexivity |].
    apply Hheap. unfold live_refs.
    assert (size (streams c) <> 0%nat)
      by (apply map_size_ne_0_lookup_2 with i; rewrite Ei; eauto).
    lia.
  - intros i ro a j ro' a' Ei Ej. rewrite (Hst i ro a Ei), (Hst j ro' a' Ej). reflexivity.
Qed.

Lemma socket_objects_share_live_closer_witness :
  exists c,
    run (wrap_socket_descriptor 7) [GetReader; GetWriter; DestroySocket] = Some c
    /\ live_refs c = 2%nat
    /\ forall i ro a, streams c !! i = Some (ro, a) ->
          _socket_fd a = 7
          /\ blocks (mem c) !! _closer a
             = Some {| use_count := live_refs c; pointee := {| closer_fd := 7 |} |}.
Proof.
  destruct (run (wrap_socket_descriptor 7) [GetReader; GetWriter; DestroySocket])
    as [c |] eqn:Erun; [| vm_compute in Erun; discriminate].
  destruct (socket_objects_share_live_closer 7 _ c Erun) as (_ & Hstreams & _).
  exists c. split; [reflexivity |]. split.
  - vm_compute in Erun. injection Erun as <-. vm_compute. reflexivity.
  - intros i ro a Ei. destruct (Hstreams i ro a Ei) as (Hfd & Hblock & _).
    split; [exact Hfd | exact Hblock].
Defined.

End socket_objects.

(** ** Vector writers over one vector *)

Section shared_vector.
Import vector_sink.

Lemma written_to_cons_same a chunk calls :
  written_to (_buffer a) ((a, chunk) :: calls) = chunk ++ written_to (_buffer a) calls.
Proof. unfold written_to. rewrite filter_cons_True by reflexivity. reflexivity. Qed.

Lemma written_to_cons_other b a chunk calls :
  _buffer a <> b -> written_to b ((a, chunk) :: calls) = written_to b calls.
Proof.
  intros Hne. unfold written_to. rewrite filter_cons_False by (simpl; exact Hne).
  reflexivity.
Qed.

(** X11.  Writers made by [create_vector_writer] over the same vector share
    it: when calls to several writers are interleaved, every vector ends
    up holding what it held followed by the byte ranges written through the
    writers over it, in the order of the calls, each call returning the
    size of its range; a vector that no call's writer refers to is left as
    it was, and none appears or goes away. *)
Theorem vector_writers_share_their_vector
    (store : gmap nat vector_writer.vector) (calls : list (t * list byte)) :
  Forall (fun call : t * list byte =>
            is_Some (store !! _buffer (fst call))
            /\ fits_ptrdiff (Z.of_nat (length (snd call)))) calls ->
  exists store',
    write_all store calls
    = Ret (store', (fun call : t * list byte => Z.of_nat (length (snd call))) <$> calls)
    /\ (forall b v, store !! b = Some v ->
          exists v', store' !! b = Some v'
                     /\ vector_writer.elems v' = vector_writer.elems v ++ written_to b calls)
    /\ (forall b, store !! b = None -> store' !! b = None).
Proof.
  revert store. induction calls as [| [a chunk] calls IH]; intros store Hall.
  - exists store. split; [reflexivity |]. split; [| auto].
    intros b v Hb. exists v. split; [exact Hb |].
    unfold written_to. simpl. rewrite app_nil_r. reflexivity.
  - inversion Hall as [| ? ? [[v Ha] Hfit] Hall']; subst. simpl in Ha, Hfit.
    destruct (write_bytes_appends v chunk Hfit) as (v1 & Hw & Helems & _).
    set (store1 := <[_buffer a := v1]> store).
    assert (Hall1 : Forall (fun call : t * list byte =>
                              is_Some (store1 !! _buffer (fst call))
                              /\ fits_ptrdiff (Z.of_nat (length (snd call)))) calls).
    { eapply Forall_impl; [exact Hall' |]. intros call [Hsome Hf]. split; [| exact Hf].
      subst store1. destruct (decide (_buffer a = _buffer (fst call))) as [<- | Hne].
      - rewrite lookup_insert_eq. eauto.
      - rewrite lookup_insert_ne by exact Hne. exact Hsome. }
    destruct (IH store1 Hall1) as (store' & Hrun & Hkept & Hnone).
    exists store'. split; [| split].
    + simpl. unfold write at 1. rewrite Ha, Hw. simpl. fold store1. rewrite Hrun. reflexivity.
    + intros b v0 Hb. destruct (decide (_buffer a = b)) as [<- | Hne].
      * assert (v0 = v) by congruence. subst v0.
        destruct (Hkept (_buffer a) v1) as (v' & Hv' & He);
          [subst store1; apply lookup_insert_eq |].
        exists v'. split; [exact Hv' |].
        rewrite He, Helems, written_to_cons_same, app_assoc. reflexivity.
      * destruct (Hkept b v0) as (v' & Hv' & He);
          [subst store1; rewrite lookup_insert_ne by exact Hne; exact Hb |].
        exists v'. split; [exact Hv' |].
        rewrite He, written_to_cons_other by exact Hne. reflexivity.
    + intros b Hb. apply Hnone. subst store1.
      rewrite lookup_insert_ne; [exact Hb |]. intros <-. congruence.
Qed.

Lemma vector_writers_share_their_vector_witness :
  let store : gmap nat vector_writer.vector :=
    {[ 1%nat := {| vector_writer.elems := ["#"]%byte; vector_writer.capacity := 1 |};
       2%nat := {| vector_writer.elems := []; vector_writer.capacity := 0 |} ]} in
  let w1 := create_vector_writer 1 in
  let w1' := create_vector_writer 1 in
  let w2 := create_vector_writer 2 in
  exists store' v1 v2,
    write_all store [(w1, ["a"]%byte); (w2, ["x"]%byte); (w1', ["b"]%byte)]
    = Ret (store', [1; 1; 1])
    /\ store' !! 1%nat = Some v1 /\ vector_writer.elems v1 = ["#"; "a"; "b"]%byte
    /\ store' !! 2%nat = Some v2 /\ vector_writer.elems v2 = ["x"]%byte.
Proof.
  intros store w1 w1' w2.
  destruct (vector_writers_share_their_vector store
              [(w1, ["a"]%byte); (w2, ["x"]%byte); (w1', ["b"]%byte)])
    as (store' & Hrun & Hkept & _).
  - repeat constructor; try (vm_compute; eauto; fail);
      unfold fits_ptrdiff, PTRDIFF_MAX; simpl; lia.
  - destruct (Hkept 1%nat {| vector_writer.elems := ["#"]%byte; vector_writer.capacity := 1 |})
      as (v1 & Hv1 & He1); [reflexivity |].
    destruct (Hkept 2%nat {| vector_writer.elems := []; vector_writer.capacity := 0 |})
      as (v2 & Hv2 & He2); [reflexivity |].
    exists store', v1, v2. split; [exact Hrun |].
    split; [exact Hv1 |]. split; [exact He1 |]. split; [exact Hv2 | exact He2].
Defined.

End shared_vector.

(** ** Writers: the empty path and the socket *)

Section writers.

(** X12.  [open_file_writer] on a path that is empty as a C string (the
    empty string, or one that starts with a NUL character) returns a writer
    without an error; the writer holds the descriptor -1, every write
    through it returns -1 and writes nothing, and destroying it changes
    nothing. *)
Theorem file_writer_on_empty_path_rejects_writes
    (file_path : string) (s : posix.state) (m : region) (buffer num_bytes : Z) :
  c_str file_path = "" ->
  let a := {| file_adapter._file_descriptor := -1; file_adapter._mode := file_mode.write |} in
  file_io.open_file_writer file_path s = Ret (a, s)
  /\ file_adapter.write a s m buffer num_bytes = Ret (a, s, -1)
  /\ file_adapter.destroy a s = s.
Proof.
  intros Hp a. unfold file_io.open_file_writer. rewrite Hp.
  split; [reflexivity |]. split; reflexivity.
Qed.

Lemma file_writer_on_empty_path_rejects_writes_witness :
  let s := {| posix.files := ∅; posix.fds := ∅ |} in
  let path := String "000"%char "cache" in
  exists a,
    file_io.open_file_writer path s = Ret (a, s)
    /\ file_adapter.write a s {| base := 0; contents := ["a"]%byte |} 0 1 = Ret (a, s, -1).
Proof.
  intros s path.
  destruct (file_writer_on_empty_path_rejects_writes path s
              {| base := 0; contents := ["a"]%byte |} 0 1) as (Hopen & Hwrite & _);
    [reflexivity |].
  eexists. split; [exact Hopen | exact Hwrite].
Defined.

Lemma socket_write_chunk a s incoming outgoing chunk :
  posix.lookup_fd s (socket._socket_fd a) = Some (posix.Stream incoming outgoing) ->
  Z.of_nat (length chunk) < 2 ^ 32 ->
  socket.write a s {| base := 0; contents := chunk |} 0 (Z.of_nat (length chunk))
  = Ret (a, posix.set_fd s (socket._socket_fd a) (posix.Stream incoming (outgoing ++ chunk)),
         Z.of_nat (length chunk)).
Proof.
  intros Hfd Hlen. unfold socket.write, posix.write.
  rewrite to_unsigned_int_small by lia. rewrite Hfd, region_load_whole. reflexivity.
Qed.



End writers.
